(** * A shallow embedding of the CLIP byte-level BPE tokenizer

    The definitions below follow the tokenizer's BPE utility header (which holds
    [IsUnicodeSpace], [SpecialTokenMap], [VocabData] and
    [TokenWithRegularExp]) and [operators/tokenizer/clip_tokenizer.cc]
    ([KernelClipBpeTokenizer::Tokenize]).

    Conventions.
    - [char32_t] code points, [int] and [int64_t] values are integers in [Z];
      where the code adds [int]s (the lengths in [bpe], the counter of the
      merges in [Load]) the 32-bit wrap-around is written out ([add32]).
    - [ustring] (a [std::u32string]) is [list Z]; [std::string] is [string],
      one [ascii] per byte.
    - [std::unordered_map] is stdpp's [gmap]; [std::list] and [std::vector]
      are [list].
    - Code that throws ([ORTX_CXX_API_THROW]) returns [Err]. *)

From Stdlib Require Import ZArith Ascii String Lia.
From stdpp Require Import gmap strings list fin_maps.

Local Open Scope Z_scope.

(** ** Machine integers *)

Definition INT_MAX : Z := 2147483647.

(** Two's complement reduction of an integer to the range of [int]. *)
Definition wrap32 (z : Z) : Z := (z + 2147483648) mod 4294967296 - 2147483648.

(** [a + b] on [int]. *)
Definition add32 (a b : Z) : Z := wrap32 (a + b).

(** ** Errors *)

Inductive result (A : Type) : Type :=
| Ok (a : A)
| Err (msg : string).
Arguments Ok {A} a.
Arguments Err {A} msg.

#[global] Instance result_ret : MRet result := fun A a => Ok a.

#[global] Instance result_bind : MBind result := fun A B k r =>
  match r with
  | Ok a => k a
  | Err m => Err m
  end.

(** ** The merge table and the greedy merge loop ([VocabData::bpe]) *)

Record BpeNode := mkBpeNode { bpe_id : Z; bpe_value : Z; bpe_length : Z }.

(** The locals of the scan in [bpe]: [pos_it] is [None] while it still
    equals [vals.end()], and the index of the chosen element afterwards. *)
Record ScanState := mkScan {
  pos_it : option nat;
  minval : Z;
  ori_id1 : Z;
  ori_id2 : Z;
  aim_id : Z
}.

Definition scan_init : ScanState :=
  {| pos_it := None; minval := INT_MAX; ori_id1 := 0; ori_id2 := 0; aim_id := 0 |}.

Section Bpe.
Variable bpe_map_ : gmap (Z * Z) BpeNode.

(** The first [for] loop of an outer iteration: [it] walks the list, [i] is
    its index, and the loop breaks when [it] has no successor. *)
Fixpoint scan (vals : list (Z * Z)) (i : nat) (st : ScanState) : ScanState :=
  match vals with
  | it :: ((it2 :: _) as rest) =>
      match bpe_map_ !! (it.1, it2.1) with
      | None => scan rest (S i) st
      | Some node =>
          if minval st >? bpe_value node
          then scan rest (S i)
                 {| pos_it := Some i; minval := bpe_value node;
                    ori_id1 := it.1; ori_id2 := it2.1; aim_id := bpe_id node |}
          else scan rest (S i) st
      end
  | _ => st
  end.

(** The second [for] loop: it runs over the elements after the merged one
    and folds every further adjacent occurrence of the original pair. *)
Fixpoint fold_repeats (id1 id2 aim : Z) (l : list (Z * Z)) : list (Z * Z) :=
  match l with
  | [] => []
  | p :: t =>
      if negb (p.1 =? id1) then p :: fold_repeats id1 id2 aim t
      else match t with
           | [] => [p]
           | q :: t' =>
               if negb (q.1 =? id2) then p :: fold_repeats id1 id2 aim t
               else (aim, add32 q.2 p.2) :: fold_repeats id1 id2 aim t'
           end
  end.

(** Erase the element at [p], overwrite its successor, then fold. *)
Definition merge_at (vals : list (Z * Z)) (p : nat) (st : ScanState) : list (Z * Z) :=
  match drop p vals with
  | x :: y :: tail =>
      take p vals ++ (aim_id st, add32 y.2 x.2)
        :: fold_repeats (ori_id1 st) (ori_id2 st) (aim_id st) tail
  | _ => vals
  end.

(** One iteration of the outer [while]; [None] when the loop ends. *)
Definition bpe_step (vals : list (Z * Z)) : option (list (Z * Z)) :=
  if (2 <=? length vals)%nat then
    let st := scan vals 0 scan_init in
    match pos_it st with
    | None => None
    | Some p => Some (merge_at vals p st)
    end
  else None.

Fixpoint bpe_loop (fuel : nat) (vals : list (Z * Z)) : list (Z * Z) :=
  match fuel with
  | O => vals
  | S n =>
      match bpe_step vals with
      | None => vals
      | Some vals' => bpe_loop n vals'
      end
  end.

(** Every iteration that does not end the loop removes an element, so as many
    iterations as the list has elements are enough ([bpe_loop_fuel]). *)
Definition bpe (vals : list (Z * Z)) : list (Z * Z) :=
  bpe_loop (length vals) vals.

(** *** Notions for the properties of the loop *)

(** The merge record of the adjacent pair at position [q], if it has one. *)
Definition pair_rank (vals : list (Z * Z)) (q : nat) : option BpeNode :=
  x ← vals !! q; y ← vals !! S q; bpe_map_ !! (x.1, y.1).

(** Position [p] holds a pair of the table whose rank no other adjacent
    pair undercuts and no pair to its left equals. *)
Definition lowest_rank_leftmost (vals : list (Z * Z)) (p : nat) (node : BpeNode) : Prop :=
  pair_rank vals p = Some node /\
  forall q node', pair_rank vals q = Some node' ->
    bpe_value node <= bpe_value node' /\
    ((q < p)%nat -> bpe_value node < bpe_value node').

(** What the scan leaves in its locals: either it kept the state it
    started from, and no pair of the list has a rank below [minval]; or it
    points at a pair whose rank is the new [minval]. *)
Definition scan_kept (vals : list (Z * Z)) (st : ScanState) : Prop :=
  forall q node, pair_rank vals q = Some node -> minval st <= bpe_value node.

Definition scan_found (vals : list (Z * Z)) (i : nat) (st st' : ScanState) : Prop :=
  exists q x y node,
    vals !! q = Some x /\ vals !! S q = Some y /\
    pos_it st' = Some (i + q)%nat /\
    lowest_rank_leftmost vals q node /\
    minval st' = bpe_value node /\ bpe_value node < minval st /\
    ori_id1 st' = x.1 /\ ori_id2 st' = y.1 /\ aim_id st' = bpe_id node.

Definition sum_lengths (vals : list (Z * Z)) : Z :=
  foldr (fun p acc => p.2 + acc) 0 vals.

End Bpe.

(** ** Code points and strings *)

(** The code point of an ASCII character, as in the literal [U'c']. *)
Definition cp (c : ascii) : Z := Z.of_nat (nat_of_ascii c).

(** The [ustring] of an ASCII literal, as in [ustring(" ")]. *)
Definition U (s : string) : list Z := cp <$> list_ascii_of_string s.

(** ** Whitespace *)

Definition IsUnicodeSpace (ch : Z) : bool :=
  match ch with
  | 0x0009 | 0x000A | 0x000B | 0x000C | 0x000D
  | 0x001C | 0x001D | 0x001E | 0x001F | 0x0020
  | 0x0085 | 0x00A0 | 0x1680
  | 0x2000 | 0x2001 | 0x2002 | 0x2003 | 0x2004 | 0x2005
  | 0x2006 | 0x2007 | 0x2008 | 0x2009 | 0x200A
  | 0x2028 | 0x2029 | 0x202F | 0x205F | 0x3000 => true
  | _ => false
  end.

Definition IsEmptyUString (str : list Z) : bool :=
  if decide (str = U " ") then false
  else forallb IsUnicodeSpace str.

Definition BothSpaces (lhs rhs : Z) : bool :=
  (lhs =? rhs) && IsUnicodeSpace lhs.

(** [starts_with pat text]: [pat] occurs in [text] at offset 0. *)
Fixpoint starts_with (pat text : list Z) : bool :=
  match pat, text with
  | [], _ => true
  | _ :: _, [] => false
  | a :: pat', b :: text' => (a =? b) && starts_with pat' text'
  end.

(** [str.find(search, pos)] and [std::search]: the offset of the first
    occurrence of [pat] in [text], [None] for [npos] or [end()]. *)
Fixpoint search (text pat : list Z) : option nat :=
  if starts_with pat text then Some O
  else match text with
       | [] => None
       | _ :: text' => S <$> search text' pat
       end.

(** The loop of [ReplaceString] over the text from [pos] on; what lies before
    [pos] is final.  Every round with a non-empty [search] consumes at least
    one character of the text, which bounds the number of rounds; with an
    empty [search] the loop of the source does not end, and the only caller
    passes a one-character [search]. *)
Fixpoint ReplaceString_from (fuel : nat) (str search_ replace : list Z) : list Z :=
  match fuel with
  | O => str
  | S fuel' =>
      match search str search_ with
      | None => str
      | Some pos =>
          take pos str ++ replace
            ++ ReplaceString_from fuel' (drop (pos + length search_) str) search_ replace
      end
  end.

Definition ReplaceString (str search_ replace : list Z) : list Z :=
  ReplaceString_from (S (length str)) str search_ replace.

(** [std::unique]: [last] is the element kept last; an element equivalent to
    it under [pred] is dropped. *)
Fixpoint unique_after {A} (pred : A -> A -> bool) (last : A) (l : list A) : list A :=
  match l with
  | [] => []
  | x :: l' =>
      if pred last x then unique_after pred last l'
      else x :: unique_after pred x l'
  end.

Definition unique {A} (pred : A -> A -> bool) (l : list A) : list A :=
  match l with
  | [] => []
  | x :: l' => x :: unique_after pred x l'
  end.

Definition WhiteSpaceClean (str : list Z) : list Z :=
  unique BothSpaces (ReplaceString str (U (String "010"%char "")) (U " ")).

(** ** Special tokens *)

Record SpecialTokenInfo := mkSpecialTokenInfo { st_str : list Z; st_id : Z }.

Record SpecialTokenMap := mkSpecialTokenMap {
  token_list_ : list SpecialTokenInfo;
  token_map_ : gmap (list Z) Z
}.

Definition SpecialTokenMap_empty : SpecialTokenMap :=
  {| token_list_ := []; token_map_ := ∅ |}.

(** [SpecialTokenMap::Add]; the constructor of [SpecialTokenInfo] refuses the
    empty string.  [Ok] holds the registry after a call that returns; [Err]
    is a throw and holds the message only: the registry that the object is
    left with then is [Add_registry] below. *)
Definition Add (m : SpecialTokenMap) (p_str : list Z) (p_id : Z) : result SpecialTokenMap :=
  match token_map_ m !! p_str with
  | Some id =>
      if negb (id =? p_id) then Err "Duplicate special tokens."
      else Ok m
  | None =>
      if decide (p_str = []) then Err "Empty special token."
      else Ok {| token_list_ := token_list_ m ++ [mkSpecialTokenInfo p_str p_id];
                 token_map_ := <[p_str := p_id]> (token_map_ m) |}
  end.

(** The [while] loop of [SplitBySpecialTokens] over one untagged segment:
    [rest] is the text from [it] (and [search_pos]) to the end.  A round that
    finds the token consumes it, and registered tokens are not empty, so the
    length of the segment bounds the number of rounds. *)
Fixpoint split_segment (fuel : nat) (rest : list Z) (st : SpecialTokenInfo)
    : list (list Z * Z) :=
  match fuel with
  | O => []
  | S fuel' =>
      match rest with
      | [] => []
      | _ :: _ =>
          match search rest (st_str st) with
          | None => [(rest, -1)]
          | Some prefixLen =>
              (if negb (prefixLen =? 0)%nat then [(take prefixLen rest, -1)] else [])
                ++ (take (length (st_str st)) (drop prefixLen rest), st_id st)
                :: split_segment fuel' (drop (prefixLen + length (st_str st)) rest) st
          end
      end
  end.

(** The body of the loop over [token_list_]: one pass over [res]. *)
Definition split_by_token (st : SpecialTokenInfo) (res : list (list Z * Z))
    : list (list Z * Z) :=
  str ← res;
  if negb (str.2 =? -1) then [str]
  else split_segment (length str.1) str.1 st.

Definition SplitBySpecialTokens (m : SpecialTokenMap) (input : list Z)
    : list (list Z * Z) :=
  foldl (fun res st => split_by_token st res) [(input, -1)] (token_list_ m).

(** ** The pre-tokenizer ([TokenWithRegularExp]) *)

(** [text[i]]; every read of the source is guarded by a test on the size. *)
Definition at_ (text : list Z) (i : nat) : Z := nth i text 0.

(** [m_text.substr(0, i)] paired with [m_text.substr(i)]: the match and the
    text that is left. *)
Definition cut (text : list Z) (i : nat) : list Z * list Z :=
  (take i text, drop i text).

(** The loops [for (; i < m_text.size(); ++i) if (!pred(m_text[i])) break;]:
    the index they stop at, counted from the start of [l]. *)
Fixpoint run_length (pred : Z -> bool) (l : list Z) : nat :=
  match l with
  | [] => O
  | c :: l' => if pred c then S (run_length pred l') else O
  end.

Definition run_end (pred : Z -> bool) (i : nat) (text : list Z) : nat :=
  (i + run_length pred (drop i text))%nat.

Section TokenWithRegularExp.
(** [ufal::unilib::unicode::category] and its masks [L], [N] and [Z] come
    from the Unicode library the header includes. *)
Variable category : Z -> Z.
Variables cat_L cat_N cat_Z : Z.

Definition IsL (ch : Z) : bool := negb (Z.land (category ch) cat_L =? 0).
Definition IsN (ch : Z) : bool := negb (Z.land (category ch) cat_N =? 0).
Definition IsZ (ch : Z) : bool := negb (Z.land (category ch) cat_Z =? 0).

Definition NotLNZ (ch : Z) : bool :=
  if IsL ch then false
  else if IsN ch then false
  else if IsZ ch then false
  else true.

(** The first alternative of [TryMatch]:
    ['s|'t|'re|'ve|'m|'ll|'d]. *)
Definition match_contraction (m_text : list Z) : option (list Z * list Z) :=
  if (at_ m_text 0 =? cp "'") && (1 <? length m_text)%nat then
    if (at_ m_text 1 =? cp "s") || (at_ m_text 1 =? cp "t") ||
       (at_ m_text 1 =? cp "m") || (at_ m_text 1 =? cp "d")
    then Some (cut m_text 2)
    else if (2 <? length m_text)%nat then
      if ((at_ m_text 1 =? cp "r") && (at_ m_text 2 =? cp "e")) ||
         ((at_ m_text 1 =? cp "v") && (at_ m_text 2 =? cp "e")) ||
         ((at_ m_text 1 =? cp "l") && (at_ m_text 2 =? cp "l"))
      then Some (cut m_text 3)
      else None
    else None
  else None.

(** [TryMatch] on a non-empty [m_text]: the match (empty when nothing
    matches) and the new [m_text]. *)
Definition TryMatch (m_text : list Z) : list Z * list Z :=
  match match_contraction m_text with
  | Some r => r
  | None =>
      (* ?\p{L}+ *)
      if (at_ m_text 0 =? cp " ") && (1 <? length m_text)%nat && IsL (at_ m_text 1)
      then cut m_text (run_end IsL 2 m_text)
      else if IsL (at_ m_text 0)
      then cut m_text (run_end IsL 1 m_text)
      (* ?\p{N}+ *)
      else if (at_ m_text 0 =? cp " ") && (1 <? length m_text)%nat && IsN (at_ m_text 1)
      then cut m_text (run_end IsN 2 m_text)
      else if IsN (at_ m_text 0)
      then cut m_text (run_end IsN 1 m_text)
      (* ?[^\s\p{L}\p{N}]+ *)
      else if (at_ m_text 0 =? cp " ") && (1 <? length m_text)%nat && NotLNZ (at_ m_text 1)
      then cut m_text (run_end NotLNZ 2 m_text)
      else if NotLNZ (at_ m_text 0)
      then cut m_text (run_end NotLNZ 1 m_text)
      (* \s+(?!\S)|\s+ *)
      else if (1 <=? length m_text)%nat && IsZ (at_ m_text 0)
      then
        let i := run_end IsZ 1 m_text in
        if (1 <? i)%nat && negb (i =? length m_text)%nat
        then cut m_text (i - 1)
        else cut m_text i
      else ([], m_text)
  end.

(** [GetNextToken]: the token, if any, and the new [m_text].  When
    [TryMatch] matches nothing it leaves [m_text] as it is, and the loop
    goes on with [m_text.substr(1)]. *)
Fixpoint GetNextToken (m_text : list Z) : option (list Z) * list Z :=
  match m_text with
  | [] => (None, [])
  | _ :: m_text' =>
      match TryMatch m_text with
      | ([], _) => GetNextToken m_text'
      | (res, m_text'') => (Some res, m_text'')
      end
  end.

End TokenWithRegularExp.

(** ** Byte strings *)

(** The byte of value [z] (modulo 256). *)
Definition byte_of (z : Z) : ascii := ascii_of_N (Z.to_N (z mod 256)).

(** Modelled from the spec: [ustring::EncodeUTF8Char] belongs to the
    [ustring] header, which is not among the sources.  The spec has the
    vocabulary map "UTF-8 token string"s and the byte encoder hold the id of
    the "single-character placeholder" of a code point, so this is the UTF-8
    encoding of one code point: one to four bytes. *)
Definition EncodeUTF8Char (chr : Z) : string :=
  if chr <=? 0x7F then
    String (byte_of chr) ""
  else if chr <=? 0x7FF then
    String (byte_of (Z.lor 0xC0 (Z.shiftr chr 6)))
      (String (byte_of (Z.lor 0x80 (Z.land chr 0x3F))) "")
  else if chr <=? 0xFFFF then
    String (byte_of (Z.lor 0xE0 (Z.shiftr chr 12)))
      (String (byte_of (Z.lor 0x80 (Z.land (Z.shiftr chr 6) 0x3F)))
         (String (byte_of (Z.lor 0x80 (Z.land chr 0x3F))) ""))
  else
    String (byte_of (Z.lor 0xF0 (Z.shiftr chr 18)))
      (String (byte_of (Z.lor 0x80 (Z.land (Z.shiftr chr 12) 0x3F)))
         (String (byte_of (Z.lor 0x80 (Z.land (Z.shiftr chr 6) 0x3F)))
            (String (byte_of (Z.lor 0x80 (Z.land chr 0x3F))) ""))).

(** Modelled from the spec: the conversion of a [ustring] to [std::string]
    belongs to the [ustring] header too; the spec has a pre-token become its
    "UTF-8 byte sequence", the encodings of its code points in a row. *)
Definition string_of_ustring (u : list Z) : string :=
  foldr (fun chr s => (EncodeUTF8Char chr ++ s)%string) ""%string u.

(** [s.erase(std::remove(s.begin(), s.end(), c), s.end())], also what
    [std::regex_replace(s, std::regex("\r"), "")] does for [c = '\r']. *)
Fixpoint remove_char (c : ascii) (s : string) : string :=
  match s with
  | EmptyString => EmptyString
  | String a s' => if Ascii.eqb a c then remove_char c s' else String a (remove_char c s')
  end.

(** [s.find(c)]. *)
Fixpoint find_char (c : ascii) (s : string) : option nat :=
  match s with
  | EmptyString => None
  | String a s' => if Ascii.eqb a c then Some O else S <$> find_char c s'
  end.

(** [s.substr(pos)]. *)
Fixpoint substr_from (pos : nat) (s : string) : string :=
  match pos, s with
  | O, _ => s
  | S _, EmptyString => EmptyString
  | S pos', String _ s' => substr_from pos' s'
  end.

(** [s.find(pat) != std::string::npos]. *)
Definition contains (pat s : string) : bool :=
  match String.index 0 pat s with
  | Some _ => true
  | None => false
  end.

(** The lines that successive [std::getline] calls return: a newline ends a
    line, and the end of the stream ends one only when characters were read
    since the last newline.  [cur] is the line read so far. *)
Fixpoint getlines (cur : string) (s : string) : list string :=
  match s with
  | EmptyString => if decide (cur = ""%string) then [] else [cur]
  | String c s' =>
      if Ascii.eqb c "010"%char then cur :: getlines "" s'
      else getlines (cur ++ String c "")%string s'
  end.

(** [std::isspace] in the "C" locale. *)
Definition isspace (c : ascii) : bool :=
  let n := nat_of_ascii c in
  (n =? 32)%nat || ((9 <=? n)%nat && (n <=? 13)%nat).

(** The words that successive [stream >> line] extractions return. *)
Fixpoint extract_words (cur : string) (s : string) : list string :=
  match s with
  | EmptyString => if decide (cur = ""%string) then [] else [cur]
  | String c s' =>
      if isspace c
      then (if decide (cur = ""%string) then [] else [cur]) ++ extract_words "" s'
      else extract_words (cur ++ String c "")%string s'
  end.

(** A [for] loop over [l] whose body can throw. *)
Fixpoint for_each {A S : Type} (body : S -> A -> result S) (l : list A) (s : S)
    : result S :=
  match l with
  | [] => Ok s
  | x :: l' => s' ← body s x; for_each body l' s'
  end.

(** [ort_extensions::narrow<int>] of a size. *)
Definition narrow_int (n : nat) : result Z :=
  if Z.of_nat n <=? INT_MAX then Ok (Z.of_nat n)
  else Err "narrowing error".

(** ** The vocabulary ([VocabData]) *)

Record VocabData := mkVocabData {
  bpe_map_ : gmap (Z * Z) BpeNode;
  byte_encoder_ : list Z;
  vocab_map_ : gmap string Z;
  id2token_map_ : list string;
  unk_id_ : Z;
  special_tokens_ : SpecialTokenMap
}.

Definition GetVocabIndex (vocab_map : gmap string Z) (str : string) : result Z :=
  match vocab_map !! str with
  | None => Err ("Cannot find word in vocabulary: " ++ str)
  | Some v => Ok v
  end.

Definition GetEncoding (v : VocabData) (key : string) : Z :=
  match vocab_map_ v !! key with
  | Some i => i
  | None => unk_id_ v
  end.

(** *** [Load]: the unknown token *)

(** The vocabulary and [unk_id_] after the first [if] of [Load]; [unk_id_]
    keeps the -1 of the constructor when the token gets its id here. *)
Definition find_unk_token (tok_json : gmap string Z) (unk_token : string)
    : gmap string Z * Z :=
  match tok_json !! unk_token with
  | Some i => (tok_json, i)
  | None => (<[unk_token := Z.of_nat (size tok_json)]> tok_json, -1)
  end.

(** *** [Load]: the byte encoder *)

(** [byte_encoder_[i] = GetVocabIndex(EncodeUTF8Char((char32_t)i))]. *)
Definition encode_own (vocab_map : gmap string Z) (be : list Z) (i : nat)
    : result (list Z) :=
  v ← GetVocabIndex vocab_map (EncodeUTF8Char (Z.of_nat i));
  Ok (<[i := v]> be).

(** [byte_encoder_[i] = GetVocabIndex(EncodeUTF8Char((char32_t)(index++)))];
    the state is [index] and the table. *)
Definition encode_next (vocab_map : gmap string Z) (s : Z * list Z) (i : nat)
    : result (Z * list Z) :=
  v ← GetVocabIndex vocab_map (EncodeUTF8Char s.1);
  Ok (s.1 + 1, <[i := v]> s.2).

Definition build_byte_encoder (vocab_map : gmap string Z) : result (list Z) :=
  be ← for_each (encode_own vocab_map) (seq 33 94) (replicate 256 0);
  be ← for_each (encode_own vocab_map) (seq 161 12) be;
  be ← for_each (encode_own vocab_map) (seq 174 82) be;
  s ← for_each (encode_next vocab_map) (seq 0 33) (256, be);
  s ← for_each (encode_next vocab_map) (seq 127 34) s;
  s ← encode_next vocab_map s 173%nat;
  Ok s.2.

(** *** [Load]: the merges *)

(** What the body of the [while (std::getline ...)] loop does with a line that
    is not skipped: it records a merge rule.  The state is [index] and
    [bpe_map_]. *)
Definition record_merge (vocab_map : gmap string Z)
    (s : Z * gmap (Z * Z) BpeNode) (line : string)
    : result (Z * gmap (Z * Z) BpeNode) :=
  match find_char " " line with
  | None => Err ("Cannot know how to parse line: " ++ line)
  | Some pos =>
      let w1 := String.substring 0 pos line in
      let w2 := substr_from (pos + 1) line in
      token_length ← narrow_int (String.length w1 + String.length w2);
      let token_length :=
        if contains "</w>" w2 || contains "</w>" w1
        then token_length - 4 else token_length in
      iw1 ← GetVocabIndex vocab_map w1;
      iw2 ← GetVocabIndex vocab_map w2;
      iww ← GetVocabIndex vocab_map (w1 ++ w2);
      Ok (add32 s.1 1,
          <[(iw1, iw2) := {| bpe_id := iww; bpe_value := s.1;
                             bpe_length := token_length |}]> s.2)
  end.

(** The body of the loop, with its two [continue]s. *)
Definition merges_line (vocab_map : gmap string Z)
    (s : Z * gmap (Z * Z) BpeNode) (line : string)
    : result (Z * gmap (Z * Z) BpeNode) :=
  let line := remove_char "013" line in
  match line with
  | EmptyString => Ok s
  | String c _ =>
      if Ascii.eqb c "#" && (s.1 =? 0) then Ok s
      else record_merge vocab_map s line
  end.

Definition load_merges (vocab_map : gmap string Z) (merges : string)
    : result (Z * gmap (Z * Z) BpeNode) :=
  for_each (merges_line vocab_map) (getlines "" merges) (0, ∅).

(** A line that records no rule while [index] is 0: it is empty or starts
    with [#], once its carriage returns are erased. *)
Definition blank_or_comment (line : string) : bool :=
  match remove_char "013" line with
  | EmptyString => true
  | String c _ => Ascii.eqb c "#"
  end.

(** *** [Load]: the special tokens *)

Section Load.
(** The constructor [ustring(const std::string&)], which decodes UTF-8, is
    part of the [ustring] header. *)
Variable ustring_of_string : string -> list Z.

Definition special_token_line (s : gmap string Z * SpecialTokenMap) (line : string)
    : result (gmap string Z * SpecialTokenMap) :=
  match line with
  | EmptyString => Ok s
  | String _ _ =>
      let line := remove_char "013" line in
      let line_32 := ustring_of_string line in
      let id := Z.of_nat (size s.1) in
      let '(id, vocab_map) :=
        match s.1 !! line with
        | Some i => (i, s.1)
        | None => (id, <[line := id]> s.1)
        end in
      sp ← Add s.2 line_32 id;
      Ok (vocab_map, sp)
  end.

(** [id2token_map_[i] = t] for every entry of the vocabulary, in the order
    the map enumerates them; the source writes out of bounds when an id is
    not below the size of the vocabulary, the model leaves the array as it
    is then.  For an id that two tokens share, the token kept is the last
    that the map enumerates: the order of a [gmap] here, that of the
    [unordered_map] in the source.  The two agree when the ids are
    [dense_ids], each number below the size once, and the array is only
    reasoned about for such a vocabulary. *)
Definition build_id2token (vocab_map : gmap string Z) : list string :=
  map_fold (fun t i acc => if 0 <=? i then <[Z.to_nat i := t]> acc else acc)
    (replicate (size vocab_map) ""%string) vocab_map.

(** [VocabData::Load]; [tok_json] is the vocabulary already parsed from
    [vocab_stream], and [special_tokens] is [None] for [nullptr]. *)
Definition Load (tok_json : gmap string Z) (merges_stream : string)
    (unk_token : string) (special_tokens : option string) : result VocabData :=
  let '(vocab_map, unk_id) := find_unk_token tok_json unk_token in
  byte_encoder ← build_byte_encoder vocab_map;
  m ← load_merges vocab_map merges_stream;
  vs ← match special_tokens with
       | None => Ok (vocab_map, SpecialTokenMap_empty)
       | Some s =>
           for_each special_token_line (extract_words "" s)
             (vocab_map, SpecialTokenMap_empty)
       end;
  Ok {| bpe_map_ := m.2;
        byte_encoder_ := byte_encoder;
        vocab_map_ := vs.1;
        id2token_map_ := build_id2token vs.1;
        unk_id_ := unk_id;
        special_tokens_ := vs.2 |}.

End Load.

(** ** The tokenizer front end ([KernelClipBpeTokenizer::Tokenize]) *)

Definition INT64_MAX : Z := 9223372036854775807.

(** The check of the constructor on the attribute [padding_length]. *)
Definition check_padding_length (padding_length_ : Z) : result Z :=
  if negb (padding_length_ =? -1) && (padding_length_ <=? 0)
  then Err "padding_length should be more than 0 or equal -1"
  else Ok padding_length_.

(** The [max_length] that [Compute] passes to [Tokenize]. *)
Definition Compute_max_length (padding_length_ : Z) : Z :=
  if padding_length_ <? 0 then INT64_MAX else padding_length_.

(** [m_text] after [regcmp.Set(cur_input.c_str())]: the view made from the
    pointer ends at the first null code point. *)
Fixpoint c_str (s : list Z) : list Z :=
  match s with
  | [] => []
  | c :: s' => if c =? 0 then [] else c :: c_str s'
  end.

(** [size_t] arithmetic. *)
Definition wrap_size_t (z : Z) : Z := z mod 18446744073709551616.

(** The locals of [Tokenize] that the loops update. *)
Record TokState := mkTokState {
  res : list Z;
  offset : Z;
  offset_mapping : list (Z * Z)
}.

Section Tokenize.
Variable category : Z -> Z.
Variables cat_L cat_N cat_Z : Z.
(** [ToLower] comes with the Unicode helpers of the string utilities. *)
Variable ToLower : Z -> Z.
Variable bbpe_tokenizer_ : VocabData.
Variable max_length : Z.
Variable compute_offset_mapping : bool.

(** The byte encodings of a pre-token: the last byte is looked up with the
    end-of-word marker, the others through the byte encoder. *)
Fixpoint byte_pairs (utf8_token : string) : list (Z * Z) :=
  match utf8_token with
  | EmptyString => []
  | String c EmptyString =>
      [(GetEncoding bbpe_tokenizer_ (String c "</w>"), 1)]
  | String c rest =>
      (byte_encoder_ bbpe_tokenizer_ !!! nat_of_ascii c, 1) :: byte_pairs rest
  end.

(** The [for (auto p : byte_list)] loop. *)
Fixpoint emit (byte_list : list (Z * Z)) (s : TokState) : TokState :=
  match byte_list with
  | [] => s
  | p :: byte_list' =>
      if Z.of_nat (length (res s)) >=? max_length then s
      else
        emit byte_list'
          {| res := res s ++ [p.1];
             offset := if compute_offset_mapping
                       then wrap_size_t (offset s + p.2) else offset s;
             offset_mapping :=
               if compute_offset_mapping
               then offset_mapping s ++ [(offset s, wrap_size_t (offset s + p.2))]
               else offset_mapping s |}
  end.

(** [utf8_token.at(0) == ' ']; the token is never empty: a match of the
    pre-tokenizer has a code point and every code point has a byte. *)
Definition leading_space (utf8_token : string) : bool :=
  match utf8_token with
  | String c _ => Ascii.eqb c " "
  | EmptyString => false
  end.

(** The body of the [while] loop for one pre-token [tok]. *)
Definition tokenize_token (tok : list Z) (s : TokState) : TokState :=
  let utf8_token := string_of_ustring tok in
  let s :=
    if compute_offset_mapping && leading_space utf8_token
    then {| res := res s; offset := wrap_size_t (offset s + 1);
            offset_mapping := offset_mapping s |}
    else s in
  let utf8_token := remove_char " " utf8_token in
  let byte_list := bpe (bpe_map_ bbpe_tokenizer_) (byte_pairs utf8_token) in
  emit byte_list s.

(** The [while (res.size() < max_length)] loop over one literal segment.
    Every round takes a non-empty token off [m_text], so the length of
    [m_text] bounds the number of rounds. *)
Fixpoint tokens_loop (fuel : nat) (m_text : list Z) (s : TokState) : TokState :=
  match fuel with
  | O => s
  | S fuel' =>
      if Z.of_nat (length (res s)) <? max_length then
        match GetNextToken category cat_L cat_N cat_Z m_text with
        | (None, _) => s
        | (Some tok, m_text') => tokens_loop fuel' m_text' (tokenize_token tok s)
        end
      else s
  end.

(** The loop over the segments; the state is [res] and [offset_map]. *)
Fixpoint segments_loop (segs : list (list Z * Z))
    (r : list Z) (offset_map : list (list (Z * Z)))
    : list Z * list (list (Z * Z)) :=
  match segs with
  | [] => (r, offset_map)
  | seg_id :: segs' =>
      if Z.of_nat (length r) >=? max_length then (r, offset_map)
      else if negb (seg_id.2 =? -1) then
        segments_loop segs' (r ++ [seg_id.2]) offset_map
      else
        let m_text := c_str seg_id.1 in
        let s0 := {| res := r; offset := 0;
                     offset_mapping := if compute_offset_mapping then [(0, 0)] else [] |} in
        let s := tokens_loop (S (length m_text)) m_text s0 in
        segments_loop segs' (res s)
          (if compute_offset_mapping
           then offset_map ++ [offset_mapping s ++ [(0, 0)]]
           else offset_map)
  end.

Definition Tokenize (input : list Z) (offset_map : list (list (Z * Z)))
    : list Z * list (list (Z * Z)) :=
  let input := WhiteSpaceClean input in
  if IsEmptyUString input then ([], offset_map)
  else
    let r := [GetEncoding bbpe_tokenizer_ "<|startoftext|>"] in
    let input := ToLower <$> input in
    let special_token_split_res :=
      SplitBySpecialTokens (special_tokens_ bbpe_tokenizer_) input in
    let '(r, offset_map) := segments_loop special_token_split_res r offset_map in
    (r ++ [GetEncoding bbpe_tokenizer_ "<|endoftext|>"], offset_map).

(** *** The ids without the cap

    What the loops would append were [max_length] never reached; the
    properties of truncation are stated against these. *)

Definition token_ids (tok : list Z) : list Z :=
  (bpe (bpe_map_ bbpe_tokenizer_)
     (byte_pairs (remove_char " " (string_of_ustring tok)))).*1.

Fixpoint text_ids (fuel : nat) (m_text : list Z) : list Z :=
  match fuel with
  | O => []
  | S fuel' =>
      match GetNextToken category cat_L cat_N cat_Z m_text with
      | (None, _) => []
      | (Some tok, m_text') => token_ids tok ++ text_ids fuel' m_text'
      end
  end.

Definition segment_ids (seg_id : list Z * Z) : list Z :=
  if negb (seg_id.2 =? -1) then [seg_id.2]
  else text_ids (S (length (c_str seg_id.1))) (c_str seg_id.1).

Definition all_ids (input : list Z) : list Z :=
  concat (segment_ids <$>
            SplitBySpecialTokens (special_tokens_ bbpe_tokenizer_)
              (ToLower <$> WhiteSpaceClean input)).

(** [r] extended by [xs] as far as [max_length] allows. *)
Definition capped (r xs : list Z) : list Z :=
  r ++ take (Z.to_nat max_length - length r) xs.

End Tokenize.

(** ** The other lookups of [VocabData] *)

Definition VocabSize (v : VocabData) : nat := size (vocab_map_ v).

Definition TokenToID (v : VocabData) (input : string) : result Z :=
  match vocab_map_ v !! input with
  | None => Err ("Token not found: " ++ input)
  | Some i => Ok i
  end.

(** [IdToToken]; the text of the number in the message is left out. *)
Definition IdToToken (v : VocabData) (id : Z) : result string :=
  if (id <? 0) || (Z.of_nat (length (id2token_map_ v)) <=? id)
  then Err "Invalid ID"
  else Ok (id2token_map_ v !!! Z.to_nat id).

(** The ids of a vocabulary are the numbers below its size, each used once:
    what the loop that fills [id2token_map_] relies on. *)
Definition dense_ids (vocab_map : gmap string Z) : Prop :=
  map_Forall (fun _ i => 0 <= i < Z.of_nat (size vocab_map)) vocab_map /\
  NoDup (map_to_list vocab_map).*2.

(** ** The ids of a merged list *)

(** The id of [p] is an id of [l] or the merged id of a rule of the table. *)
Definition id_from (table : gmap (Z * Z) BpeNode) (l : list (Z * Z)) (p : Z * Z) : Prop :=
  p.1 ∈ l.*1 \/ exists k node, table !! k = Some node /\ bpe_id node = p.1.

(** ** The ranks of a merge table *)

(** The ranks are not negative, below [index], and different for different
    pairs. *)
Definition ranks_below (index : Z) (table : gmap (Z * Z) BpeNode) : Prop :=
  map_Forall (fun _ node => 0 <= bpe_value node < index) table /\
  forall k1 k2 n1 n2,
    table !! k1 = Some n1 -> table !! k2 = Some n2 ->
    bpe_value n1 = bpe_value n2 -> k1 = k2.

(** ** The registry of special tokens, as a call of [Add] that returns keeps it *)

Definition SpecialTokenMap_wf (m : SpecialTokenMap) : Prop :=
  Forall (fun st => st_str st <> []) (token_list_ m) /\
  NoDup (st_str <$> token_list_ m) /\
  forall s i, token_map_ m !! s = Some i <-> mkSpecialTokenInfo s i ∈ token_list_ m.

(** The registry a call of [SpecialTokenMap::Add] leaves in the object,
    whether it returns or throws.  A string found in [token_map_] changes
    nothing, with the same id or another.  For a new string
    [token_map_[p_str] = p_id] is executed first; the constructor of
    [SpecialTokenInfo] then throws for the empty string, before
    [push_back]: the empty string stays in [token_map_] and is not in
    [token_list_]. *)
Definition Add_registry (m : SpecialTokenMap) (p_str : list Z) (p_id : Z)
    : SpecialTokenMap :=
  match token_map_ m !! p_str with
  | Some _ => m
  | None =>
      {| token_list_ :=
           if decide (p_str = []) then token_list_ m
           else token_list_ m ++ [mkSpecialTokenInfo p_str p_id];
         token_map_ := <[p_str := p_id]> (token_map_ m) |}
  end.

(** ** The tokens of a text *)

(** [no_adjacent pred l]: no element of [l] is followed by one that [pred]
    relates it to. *)
Fixpoint no_adjacent {A} (pred : A -> A -> bool) (l : list A) : Prop :=
  match l with
  | x :: ((y :: _) as l') => pred x y = false /\ no_adjacent pred l'
  | _ => True
  end.

(** A token of a class of characters: characters of the class, after at most
    one leading space. *)
Definition token_run (pred : Z -> bool) (tok : list Z) : Prop :=
  tok <> [] /\
  (Forall (fun c => pred c = true) tok \/
   exists t, tok = cp " " :: t /\ t <> [] /\ Forall (fun c => pred c = true) t).

(** The text that is left does not go on with a character of the class. *)
Definition run_ends (pred : Z -> bool) (rest : list Z) : Prop :=
  match rest with
  | [] => True
  | c :: _ => pred c = false
  end.

Section PreTokens.
Variable category : Z -> Z.
Variables cat_L cat_N cat_Z : Z.

(** The tokens that successive calls of [GetNextToken] return, until it
    returns [false]. *)
Fixpoint pre_tokens (fuel : nat) (m_text : list Z) : list (list Z) :=
  match fuel with
  | O => []
  | S fuel' =>
      match GetNextToken category cat_L cat_N cat_Z m_text with
      | (None, _) => []
      | (Some tok, m_text') => tok :: pre_tokens fuel' m_text'
      end
  end.

End PreTokens.

(** ** The kernel ([KernelClipBpeTokenizer::Compute]) *)

(** A row of the output [token]: the ids, then the pad token up to
    [max_length]. *)
Definition token_row (max_length : nat) (pad_token : Z) (r : list Z) : list Z :=
  r ++ replicate (max_length - length r) pad_token.

(** A row of the attention mask. *)
Definition mask_row (max_length : nat) (r : list Z) : list Z :=
  replicate (length r) 1 ++ replicate (max_length - length r) 0.

(** The two values stored for every mapping of every list of [offset_map]. *)
Definition offset_values (offset_map : list (list (Z * Z))) : list Z :=
  mappings ← offset_map; mapping ← mappings; [mapping.1; mapping.2].

Record ComputeOutput := mkComputeOutput {
  output_dim : list Z;
  token : list Z;
  mask : option (list Z);
  offset_out : option (list Z)
}.

Section Compute.
Variable category : Z -> Z.
Variables cat_L cat_N cat_Z : Z.
Variable ToLower : Z -> Z.
Variable ustring_of_string : string -> list Z.
Variable bbpe_tokenizer_ : VocabData.
Variable padding_length_ : Z.

(** The loop over [str_input]; [offset_map] is shared by the calls. *)
Fixpoint tokenize_inputs (compute_offset_mapping : bool) (str_input : list string)
    (offset_map : list (list (Z * Z))) : list (list Z) * list (list (Z * Z)) :=
  match str_input with
  | [] => ([], offset_map)
  | str :: str_input' =>
      let '(r, offset_map) :=
        Tokenize category cat_L cat_N cat_Z ToLower bbpe_tokenizer_
          (Compute_max_length padding_length_) compute_offset_mapping
          (ustring_of_string str) offset_map in
      let '(rs, offset_map) :=
        tokenize_inputs compute_offset_mapping str_input' offset_map in
      (r :: rs, offset_map)
  end.

(** The length of the rows: the longest result, or the padding length. *)
Definition row_length (tokenize_results : list (list Z)) : nat :=
  if padding_length_ =? -1
  then foldl (fun m r => Nat.max m (length r)) 0%nat tokenize_results
  else Z.to_nat (wrap_size_t padding_length_).

(** [Compute]: [attention_mask] and [offset_mapping] tell whether the
    optional outputs are asked for.  [token], [mask] and [offset_out] are the
    values in the order the loops store them, from index 0 on; the buffers are
    allocated for the products of [output_dim] and of [output_dim] with 2. *)
Definition Compute (input_dim : list Z) (str_input : list string)
    (attention_mask offset_mapping : bool) : ComputeOutput :=
  let '(tokenize_results, offset_map) :=
    tokenize_inputs offset_mapping str_input [] in
  let max_length := row_length tokenize_results in
  let pad_token := GetEncoding bbpe_tokenizer_ "<|endoftext|>" in
  {| output_dim := input_dim ++ [Z.of_nat max_length];
     token := r ← tokenize_results; token_row max_length pad_token r;
     mask := if attention_mask
             then Some (r ← tokenize_results; mask_row max_length r)
             else None;
     offset_out := if offset_mapping then Some (offset_values offset_map) else None |}.

End Compute.

(** ** Instances for the examples *)

Definition example_table : gmap (Z * Z) BpeNode :=
  <[(1, 2) := mkBpeNode 12 0 2]> (<[(2, 3) := mkBpeNode 23 1 2]> ∅).


(** The 68 bytes outside the three printable ranges, in byte order. *)
Definition nonprintable_bytes : list nat := seq 0 33 ++ seq 127 34 ++ [173%nat].

(** The code points whose characters [Load] looks up for the byte encoder. *)
Definition byte_chars : list Z :=
  Z.of_nat <$> (seq 33 94 ++ seq 161 12 ++ seq 174 82 ++ seq 256 68).

(** A vocabulary in the layout of CLIP's: the 256 byte characters, the same
    with the end-of-word marker, then a few merged tokens. *)
Definition example_tokens : list string :=
  (EncodeUTF8Char <$> byte_chars)
  ++ ((fun c => (EncodeUTF8Char c ++ "</w>")%string) <$> byte_chars)
  ++ ["ab"; "cd</w>"; "#x"; "#xy"]%string.

Definition example_json : gmap string Z :=
  list_to_map (zip example_tokens (Z.of_nat <$> seq 0 (length example_tokens))).

(** A decoder for ASCII text, a category function and a lower-casing function
    for ASCII code points: enough for the examples. *)
Definition ascii_decode (s : string) : list Z := U s.

Definition ascii_category (ch : Z) : Z :=
  if ((65 <=? ch) && (ch <=? 90)) || ((97 <=? ch) && (ch <=? 122)) then 1
  else if (48 <=? ch) && (ch <=? 57) then 2
  else if ch =? 32 then 4
  else 8.

Definition ascii_tolower (ch : Z) : Z :=
  if (65 <=? ch) && (ch <=? 90) then ch + 32 else ch.

(** A newline-separated text. *)
Definition lines (l : list string) : string :=
  foldr (fun s acc => (s ++ String "010"%char acc)%string) ""%string l.

Definition example_merges : string := lines ["#version: 0.2"; "a b"; "c d</w>"]%string.

Definition example_special : string := lines ["<|startoftext|>"; "<|endoftext|>"]%string.

Definition example_byte_encoder : list Z :=
  match build_byte_encoder example_json with
  | Ok be => be
  | Err _ => []
  end.

Definition is_Ok {A} (r : result A) : bool :=
  match r with
  | Ok _ => true
  | Err _ => false
  end.

Definition empty_VocabData : VocabData :=
  {| bpe_map_ := ∅; byte_encoder_ := replicate 256 0; vocab_map_ := ∅;
     id2token_map_ := []; unk_id_ := -1; special_tokens_ := SpecialTokenMap_empty |}.

(** The tokenizer that [Load] makes of the example vocabulary and merges,
    with the two special tokens of the CLIP kernel. *)
Definition example_tokenizer : VocabData :=
  match Load ascii_decode example_json example_merges "<|endoftext|>"
          (Some example_special) with
  | Ok v => v
  | Err _ => empty_VocabData
  end.

Definition example_Tokenize (max_length : Z) (input : string) : list Z :=
  (Tokenize ascii_category 1 2 4 ascii_tolower example_tokenizer max_length false
     (U input) []).1.

(** * Properties *)

(** ** Machine integers *)

Lemma wrap32_small z : -2147483648 <= z <= INT_MAX -> wrap32 z = z.
Proof.
  intros Hz. unfold wrap32, INT_MAX in *.
  rewrite Z.mod_small; lia.
Qed.

Lemma wrap32_add_l a b : wrap32 (wrap32 a + b) = wrap32 (a + b).
Proof.
  unfold wrap32.
  replace ((a + 2147483648) mod 4294967296 - 2147483648 + b + 2147483648)
    with ((a + 2147483648) mod 4294967296 + b) by lia.
  replace (a + b + 2147483648) with ((a + 2147483648) + b) by lia.
  f_equal. rewrite (Z.add_mod (a + 2147483648) b) by lia.
  rewrite (Z.add_mod ((a + 2147483648) mod 4294967296) b) by lia.
  rewrite Z.mod_mod by lia. reflexivity.
Qed.

Lemma wrap32_add_r a b : wrap32 (a + wrap32 b) = wrap32 (a + b).
Proof. rewrite (Z.add_comm a), wrap32_add_l. f_equal. lia. Qed.

(** ** The merge loop *)

Section BpeFacts.
Variable table : gmap (Z * Z) BpeNode.

Lemma pair_rank_cons x vals q : pair_rank table (x :: vals) (S q) = pair_rank table vals q.
Proof. reflexivity. Qed.

Lemma pair_rank_short vals q : (length vals < 2)%nat -> pair_rank table vals q = None.
Proof.
  intros Hlen. unfold pair_rank.
  destruct (vals !! q) as [x|] eqn:Hq; [|done]. simpl.
  destruct (vals !! S q) as [y|] eqn:HSq; [|done].
  apply lookup_lt_Some in HSq. lia.
Qed.

Lemma pair_rank_head x y vals :
  pair_rank table (x :: y :: vals) 0 = table !! (x.1, y.1).
Proof. reflexivity. Qed.

Lemma scan_kept_cons x y vals st :
  scan_kept table (y :: vals) st ->
  (forall node, table !! (x.1, y.1) = Some node -> minval st <= bpe_value node) ->
  scan_kept table (x :: y :: vals) st.
Proof.
  intros Hkept Hhead [|q] node Hq.
  - rewrite pair_rank_head in Hq. by apply Hhead.
  - rewrite pair_rank_cons in Hq. by apply (Hkept q).
Qed.

Lemma scan_found_cons x y vals i st st1 st' :
  scan_found table (y :: vals) (S i) st1 st' ->
  minval st1 <= minval st ->
  (forall node, table !! (x.1, y.1) = Some node -> minval st1 <= bpe_value node) ->
  scan_found table (x :: y :: vals) i st st'.
Proof.
  intros (q & x' & y' & node & Hq & HSq & Hpos & [Hr Hlow] & Hmin & Hlt & Hids) Hle Hhead.
  exists (S q), x', y', node. split; [done|]. split; [done|].
  split; [rewrite Hpos; f_equal; lia|].
  split; [|split; [done|split; [lia|done]]].
  split; [by rewrite pair_rank_cons|].
  intros [|q'] node' Hq'.
  - rewrite pair_rank_head in Hq'. apply Hhead in Hq'. lia.
  - rewrite pair_rank_cons in Hq'. destruct (Hlow _ _ Hq') as [H1 H2].
    split; [done|]. intros ?. apply H2. lia.
Qed.

Lemma scan_cons x y vals i st :
  scan table (x :: y :: vals) i st =
  match table !! (x.1, y.1) with
  | None => scan table (y :: vals) (S i) st
  | Some node =>
      if minval st >? bpe_value node
      then scan table (y :: vals) (S i)
             (mkScan (Some i) (bpe_value node) x.1 y.1 (bpe_id node))
      else scan table (y :: vals) (S i) st
  end.
Proof. reflexivity. Qed.

Lemma scan_spec vals : forall i st,
  (scan table vals i st = st /\ scan_kept table vals st) \/
  scan_found table vals i st (scan table vals i st).
Proof.
  induction vals as [|x vals IH]; intros i st.
  { left. split; [done|]. intros q node Hq. by rewrite pair_rank_short in Hq by (simpl; lia). }
  destruct vals as [|y vals].
  { left. split; [done|]. intros q node Hq. by rewrite pair_rank_short in Hq by (simpl; lia). }
  rewrite scan_cons.
  destruct (table !! (x.1, y.1)) as [node|] eqn:Hxy.
  - destruct (minval st >? bpe_value node) eqn:Hgt.
    + (* the pair at the head becomes the candidate *)
      right.
      destruct (IH (S i) (mkScan (Some i) (bpe_value node) x.1 y.1 (bpe_id node)))
        as [[Heq Hkept]|Hfound].
      * rewrite Heq. exists O, x, y, node. simpl.
        split; [done|]. split; [done|]. split; [f_equal; lia|].
        split; [|split; [done|split; [lia|done]]].
        split; [by rewrite pair_rank_head|].
        intros [|q'] node' Hq'.
        -- rewrite pair_rank_head, Hxy in Hq'. injection Hq' as <-. lia.
        -- rewrite pair_rank_cons in Hq'. apply Hkept in Hq'. simpl in Hq'. lia.
      * eapply scan_found_cons; [exact Hfound|simpl; lia|].
        simpl. intros node' Hn. rewrite Hxy in Hn. injection Hn as <-. lia.
    + (* the candidate stays *)
      destruct (IH (S i) st) as [[Heq Hkept]|Hfound].
      * left. split; [done|]. apply scan_kept_cons; [done|].
        intros node' Hn. rewrite Hxy in Hn. injection Hn as <-. lia.
      * right. eapply scan_found_cons; [exact Hfound|lia|].
        intros node' Hn. rewrite Hxy in Hn. injection Hn as <-. lia.
  - destruct (IH (S i) st) as [[Heq Hkept]|Hfound].
    + left. split; [done|]. apply scan_kept_cons; [done|].
      intros node' Hn. by rewrite Hxy in Hn.
    + right. eapply scan_found_cons; [exact Hfound|lia|].
      intros node' Hn. by rewrite Hxy in Hn.
Qed.

(** *** The fold of the repeats *)

Lemma fold_repeats_cons2 id1 id2 aim p q t :
  fold_repeats id1 id2 aim (p :: q :: t) =
  if negb (p.1 =? id1) then p :: fold_repeats id1 id2 aim (q :: t)
  else if negb (q.1 =? id2) then p :: fold_repeats id1 id2 aim (q :: t)
  else (aim, add32 q.2 p.2) :: fold_repeats id1 id2 aim t.
Proof. simpl. by destruct (p.1 =? id1). Qed.

Lemma fold_repeats_single id1 id2 aim p : fold_repeats id1 id2 aim [p] = [p].
Proof. simpl. by destruct (p.1 =? id1). Qed.

(** Induction along the recursion of [fold_repeats]. *)
Lemma pairs_ind (P : list (Z * Z) -> Prop) :
  P [] -> (forall p, P [p]) ->
  (forall p q t, P (q :: t) -> P t -> P (p :: q :: t)) ->
  forall l, P l.
Proof.
  intros Hnil Hone Hstep l.
  assert (P l /\ forall p, P (p :: l)) as [H _]; [|exact H].
  induction l as [|q t [IH1 IH2]]; [by split|].
  split; [apply IH2|]. intros p. apply Hstep; [apply IH2|apply IH1].
Qed.

Lemma fold_repeats_length id1 id2 aim l :
  (length (fold_repeats id1 id2 aim l) <= length l)%nat.
Proof.
  induction l as [|p|p q t IH1 IH2] using pairs_ind; [done| by rewrite fold_repeats_single|].
  rewrite fold_repeats_cons2.
  destruct (negb (p.1 =? id1)); [simpl in *; lia|].
  destruct (negb (q.1 =? id2)); simpl in *; lia.
Qed.

Lemma sum_lengths_cons p l : sum_lengths (p :: l) = p.2 + sum_lengths l.
Proof. reflexivity. Qed.

Lemma sum_lengths_app l1 l2 :
  sum_lengths (l1 ++ l2) = sum_lengths l1 + sum_lengths l2.
Proof. induction l1 as [|p l1 IH]; [done|]. rewrite <- app_comm_cons, !sum_lengths_cons. lia. Qed.

Lemma sum_lengths_nonneg l : Forall (fun p => 0 <= p.2) l -> 0 <= sum_lengths l.
Proof. induction 1; [done|]. rewrite sum_lengths_cons. lia. Qed.

Lemma fold_repeats_sum_wrap id1 id2 aim l :
  wrap32 (sum_lengths (fold_repeats id1 id2 aim l)) = wrap32 (sum_lengths l).
Proof.
  induction l as [|p|p q t IH1 IH2] using pairs_ind; [done| by rewrite fold_repeats_single|].
  rewrite fold_repeats_cons2.
  destruct (negb (p.1 =? id1)).
  { rewrite !(sum_lengths_cons p), <- wrap32_add_r, IH1, wrap32_add_r. done. }
  destruct (negb (q.1 =? id2)).
  { rewrite !(sum_lengths_cons p), <- wrap32_add_r, IH1, wrap32_add_r. done. }
  rewrite !sum_lengths_cons. cbn [snd]. unfold add32.
  rewrite wrap32_add_l, <- wrap32_add_r, IH2, wrap32_add_r. f_equal. lia.
Qed.

Lemma fold_repeats_sum id1 id2 aim l :
  Forall (fun p => 0 <= p.2) l -> sum_lengths l <= INT_MAX ->
  Forall (fun p => 0 <= p.2) (fold_repeats id1 id2 aim l) /\
  sum_lengths (fold_repeats id1 id2 aim l) = sum_lengths l.
Proof.
  induction l as [|p|p q t IH1 IH2] using pairs_ind; intros Hpos Hsum;
    [done| by rewrite fold_repeats_single|].
  rewrite fold_repeats_cons2.
  apply Forall_cons in Hpos as [Hp Hqt].
  pose proof Hqt as Hqt'. apply Forall_cons in Hqt' as [Hq Ht].
  pose proof (sum_lengths_nonneg _ Ht) as Htn.
  rewrite !sum_lengths_cons in Hsum.
  assert (Forall (fun p => 0 <= p.2) (p :: fold_repeats id1 id2 aim (q :: t)) /\
          sum_lengths (p :: fold_repeats id1 id2 aim (q :: t))
          = sum_lengths (p :: q :: t)) as Hkeep.
  { destruct IH1 as [IHa IHb]; [done|rewrite sum_lengths_cons; lia|].
    split; [by apply Forall_cons|]. rewrite !(sum_lengths_cons p). by rewrite IHb. }
  destruct (negb (p.1 =? id1)); [done|].
  destruct (negb (q.1 =? id2)); [done|].
  destruct IH2 as [IHa IHb]; [done|lia|].
  assert (add32 q.2 p.2 = q.2 + p.2) as Hadd by (apply wrap32_small; unfold INT_MAX in *; lia).
  split.
  - apply Forall_cons. split; [|done]. cbn [snd]. rewrite Hadd. lia.
  - rewrite !sum_lengths_cons. cbn [snd]. rewrite Hadd, IHb. lia.
Qed.

(** *** One iteration of the outer loop *)

Lemma bpe_step_Some vals vals' :
  bpe_step table vals = Some vals' ->
  exists p x y node,
    vals !! p = Some x /\ vals !! S p = Some y /\
    lowest_rank_leftmost table vals p node /\ bpe_value node < INT_MAX /\
    vals' = take p vals ++ (bpe_id node, add32 y.2 x.2)
              :: fold_repeats x.1 y.1 (bpe_id node) (drop (S (S p)) vals).
Proof.
  unfold bpe_step. destruct (2 <=? length vals)%nat; [|done].
  destruct (scan_spec vals 0 scan_init) as [[Heq _]|Hfound].
  { by rewrite Heq. }
  destruct Hfound as (q & x & y & node & Hq & HSq & Hpos & Hlow & Hmin & Hlt & Hi1 & Hi2 & Haim).
  rewrite Hpos. intros [= <-]. exists q, x, y, node.
  repeat (split; [done|]). unfold merge_at. simpl.
  rewrite (drop_S _ _ _ Hq), (drop_S _ _ _ HSq), Hi1, Hi2, Haim. done.
Qed.

Lemma bpe_step_None vals :
  bpe_step table vals = None <->
  forall q node, pair_rank table vals q = Some node -> INT_MAX <= bpe_value node.
Proof.
  unfold bpe_step. split.
  - destruct (2 <=? length vals)%nat eqn:Hlen.
    + destruct (scan_spec vals 0 scan_init) as [[Heq Hkept]|Hfound].
      * intros _ q node Hq. by apply Hkept in Hq.
      * destruct Hfound as (q & x & y & node & _ & _ & Hpos & _). by rewrite Hpos.
    + intros _ q node Hq. apply Nat.leb_gt in Hlen. by rewrite pair_rank_short in Hq.
  - intros Hnone. destruct (2 <=? length vals)%nat; [|done].
    destruct (scan_spec vals 0 scan_init) as [[Heq _]|Hfound].
    + by rewrite Heq.
    + destruct Hfound as (q & x & y & node & _ & _ & _ & [Hr _] & _ & Hlt & _).
      apply Hnone in Hr. simpl in Hlt. lia.
Qed.

Lemma split_at_pair (vals : list (Z * Z)) p x y :
  vals !! p = Some x -> vals !! S p = Some y ->
  vals = take p vals ++ x :: y :: drop (S (S p)) vals.
Proof.
  intros Hp HSp. rewrite <- (drop_S _ _ _ HSp), <- (drop_S _ _ _ Hp).
  by rewrite take_drop.
Qed.

Lemma bpe_step_length vals vals' :
  bpe_step table vals = Some vals' -> (length vals' < length vals)%nat.
Proof.
  intros (p & x & y & node & Hp & HSp & _ & _ & ->)%bpe_step_Some.
  pose proof (f_equal length (split_at_pair _ _ _ _ Hp HSp)) as Hv.
  rewrite length_app in Hv. rewrite length_app. simpl in *.
  pose proof (fold_repeats_length x.1 y.1 (bpe_id node) (drop (S (S p)) vals)). lia.
Qed.

(** [bpe] runs the loop to its end: the fuel never runs out. *)
Lemma bpe_loop_fuel fuel vals :
  (length vals <= fuel)%nat -> bpe_step table (bpe_loop table fuel vals) = None.
Proof.
  revert vals. induction fuel as [|fuel IH]; intros vals Hlen.
  - destruct vals; [done|simpl in Hlen; lia].
  - simpl. destruct (bpe_step table vals) as [vals'|] eqn:Hstep; [|done].
    apply IH. apply bpe_step_length in Hstep. lia.
Qed.

Lemma bpe_fixed vals : bpe_step table vals = None -> bpe table vals = vals.
Proof. intros H. unfold bpe. destruct (length vals); [done|]. simpl. by rewrite H. Qed.

Lemma bpe_loop_sum_wrap fuel vals :
  wrap32 (sum_lengths (bpe_loop table fuel vals)) = wrap32 (sum_lengths vals).
Proof.
  revert vals. induction fuel as [|fuel IH]; intros vals; [done|].
  simpl. destruct (bpe_step table vals) as [vals'|] eqn:Hstep; [|done].
  rewrite IH.
  apply bpe_step_Some in Hstep as (p & x & y & node & Hp & HSp & _ & _ & ->).
  rewrite (f_equal sum_lengths (split_at_pair _ _ _ _ Hp HSp)).
  rewrite !sum_lengths_app, !sum_lengths_cons. cbn [snd].
  rewrite <- (wrap32_add_r (sum_lengths (take p vals))).
  rewrite <- (wrap32_add_r (sum_lengths (take p vals)) (x.2 + _)).
  f_equal. f_equal. unfold add32.
  rewrite wrap32_add_l, <- wrap32_add_r, fold_repeats_sum_wrap, wrap32_add_r.
  f_equal. lia.
Qed.

Lemma bpe_loop_sum fuel vals :
  Forall (fun p => 0 <= p.2) vals -> sum_lengths vals <= INT_MAX ->
  Forall (fun p => 0 <= p.2) (bpe_loop table fuel vals) /\
  sum_lengths (bpe_loop table fuel vals) = sum_lengths vals.
Proof.
  revert vals. induction fuel as [|fuel IH]; intros vals Hpos Hsum; [done|].
  simpl. destruct (bpe_step table vals) as [vals'|] eqn:Hstep; [|done].
  apply bpe_step_Some in Hstep as (p & x & y & node & Hp & HSp & _ & _ & ->).
  pose proof (split_at_pair _ _ _ _ Hp HSp) as Hv.
  rewrite (f_equal sum_lengths Hv) in Hsum |- *.
  rewrite Hv in Hpos.
  apply Forall_app in Hpos as [Hpos1 Hpos2].
  apply Forall_cons in Hpos2 as [Hx Hpos2]. apply Forall_cons in Hpos2 as [Hy Hpos2].
  rewrite sum_lengths_app, !sum_lengths_cons in Hsum.
  pose proof (sum_lengths_nonneg _ Hpos1). pose proof (sum_lengths_nonneg _ Hpos2).
  destruct (fold_repeats_sum x.1 y.1 (bpe_id node) _ Hpos2) as [Hf1 Hf2]; [lia|].
  assert (add32 y.2 x.2 = y.2 + x.2) as Hadd by (apply wrap32_small; unfold INT_MAX in *; lia).
  destruct (IH (take p vals ++ (bpe_id node, add32 y.2 x.2)
                  :: fold_repeats x.1 y.1 (bpe_id node) (drop (S (S p)) vals))) as [IHa IHb].
  - apply Forall_app. split; [done|]. apply Forall_cons. split; [|done].
    cbn [snd]. rewrite Hadd. lia.
  - rewrite sum_lengths_app, sum_lengths_cons. cbn [snd]. rewrite Hadd, Hf2. lia.
  - split; [done|]. rewrite IHb.
    rewrite !sum_lengths_app, !sum_lengths_cons. cbn [snd]. rewrite Hadd, Hf2. lia.
Qed.

(** C1: an iteration of the outer loop of [bpe] merges the adjacent pair
    with the lowest rank of the merge table, the leftmost one among equal
    ranks, and ends the loop exactly when no adjacent pair is in the table;
    with [(A,B)] of rank 0 and [(B,C)] of rank 1, the iteration on
    [[A;B;C]] yields [[AB;C]].  The ranks of the table are below
    [INT_MAX], the value [minval] starts from. *)
Theorem bpe_merges_lowest_rank_leftmost :
  (map_Forall (fun _ node => bpe_value node < INT_MAX) table ->
   forall vals, bpe_step table vals = None <-> forall q, pair_rank table vals q = None) /\
  (forall vals vals', bpe_step table vals = Some vals' ->
     exists p x y node,
       vals !! p = Some x /\ vals !! S p = Some y /\
       lowest_rank_leftmost table vals p node /\
       vals' = take p vals ++ (bpe_id node, add32 y.2 x.2)
                 :: fold_repeats x.1 y.1 (bpe_id node) (drop (S (S p)) vals)) /\
  (forall A B C la lb lc nAB nBC,
     table !! (A, B) = Some nAB -> bpe_value nAB = 0 ->
     table !! (B, C) = Some nBC -> bpe_value nBC = 1 ->
     bpe_step table [(A, la); (B, lb); (C, lc)]
     = Some [(bpe_id nAB, add32 lb la); (C, lc)]).
Proof.
  split; [|split].
  - intros Hranks vals. rewrite bpe_step_None. split.
    + intros H q. destruct (pair_rank table vals q) as [node|] eqn:Hq; [|done].
      pose proof (H _ _ Hq) as Hge.
      unfold pair_rank in Hq.
      destruct (vals !! q) as [x|]; [|done]. simpl in Hq.
      destruct (vals !! S q) as [y|]; [|done]. simpl in Hq.
      apply Hranks in Hq. simpl in Hq. lia.
    + intros H q node Hq. by rewrite H in Hq.
  - intros vals vals' (p & x & y & node & Hp & HSp & Hlow & _ & ->)%bpe_step_Some.
    by exists p, x, y, node.
  - intros A B C la lb lc nAB nBC HAB H0 HBC H1.
    unfold bpe_step. cbn [length Nat.leb].
    rewrite scan_cons. cbn [fst]. rewrite HAB. cbn [scan_init minval]. rewrite H0.
    change (INT_MAX >? 0) with true. cbn iota.
    rewrite scan_cons. cbn [fst]. rewrite HBC. cbn [minval]. rewrite H1.
    change (0 >? 1) with false. cbn iota.
    cbn. unfold merge_at. cbn. by destruct (C =? A).
Qed.

(** C9: a sequence on which the scan of [bpe] finds no pair to merge is
    left as it is, and [bpe] run on its own result changes nothing. *)
Theorem bpe_idempotent :
  (forall vals, pos_it (scan table vals 0 scan_init) = None -> bpe table vals = vals) /\
  (forall vals, bpe table (bpe table vals) = bpe table vals).
Proof.
  split.
  - intros vals Hscan. apply bpe_fixed. unfold bpe_step.
    destruct (2 <=? length vals)%nat; [|done]. simpl. by rewrite Hscan.
  - intros vals. apply bpe_fixed. by apply bpe_loop_fuel.
Qed.

(** C10, as the code has it: [bpe] keeps the sum of the lengths in [int]
    arithmetic, for every list; the sums are equal as integers when the
    lengths are not negative and their total is an [int], so that no
    addition of the loop overflows. *)
Theorem bpe_preserves_length_sum vals :
  wrap32 (sum_lengths (bpe table vals)) = wrap32 (sum_lengths vals) /\
  (Forall (fun p => 0 <= p.2) vals -> sum_lengths vals <= INT_MAX ->
   sum_lengths (bpe table vals) = sum_lengths vals).
Proof.
  split; [apply bpe_loop_sum_wrap|].
  intros Hpos Hsum. by apply bpe_loop_sum.
Qed.

End BpeFacts.

Lemma bpe_merges_lowest_rank_leftmost_witness :
  (bpe_step example_table [(12, 2); (3, 1)] = None <->
   forall q, pair_rank example_table [(12, 2); (3, 1)] q = None) /\
  bpe_step example_table [(1, 1); (2, 1); (3, 1)] = Some [(12, 2); (3, 1)].
Proof.
  split.
  - apply (proj1 (bpe_merges_lowest_rank_leftmost example_table)).
    apply (bool_decide_unpack _). vm_compute. reflexivity.
  - apply (proj2 (proj2 (bpe_merges_lowest_rank_leftmost example_table))
             1 2 3 1 1 1 (mkBpeNode 12 0 2) (mkBpeNode 23 1 2)); reflexivity.
Defined.

Lemma bpe_idempotent_witness :
  bpe example_table [(12, 2); (3, 1)] = [(12, 2); (3, 1)].
Proof. apply (proj1 (bpe_idempotent example_table)). reflexivity. Defined.

(** C10, as the claim has it, fails: the merged node stores the [int] sum
    of the two lengths, which wraps when the total is above [INT_MAX]. *)
Lemma bpe_length_sum_overflow_counterexample :
  ~ (forall table vals, sum_lengths (bpe table vals) = sum_lengths vals).
Proof.
  intros H. specialize (H example_table [(1, 2147483647); (2, 1)]).
  vm_compute in H. discriminate H.
Qed.

Lemma bpe_preserves_length_sum_witness :
  sum_lengths (bpe example_table [(1, 1); (2, 1); (3, 1); (1, 1); (2, 1)])
  = sum_lengths [(1, 1); (2, 1); (3, 1); (1, 1); (2, 1)].
Proof.
  apply (proj2 (bpe_preserves_length_sum example_table _)).
  - repeat constructor; simpl; lia.
  - vm_compute. discriminate.
Defined.

(** ** Whitespace cleaning *)

Lemma search_single_cons (a c : Z) (text : list Z) :
  search (c :: text) [a] = if a =? c then Some 0%nat else S <$> search text [a].
Proof. simpl. by destruct (a =? c). Qed.

(** With a search string of one character the loop of [ReplaceString] ends
    within its bound, and replaces every occurrence. *)
Lemma ReplaceString_from_single (a b : Z) fuel : forall str,
  (length str < fuel)%nat ->
  ReplaceString_from fuel str [a] [b] = (fun c => if c =? a then b else c) <$> str.
Proof.
  induction fuel as [|fuel IH]; intros str Hlen; [lia|].
  cbn [ReplaceString_from].
  assert (forall text : list Z,
            match search text [a] with
            | None => ((fun c => if c =? a then b else c) <$> text) = text
            | Some pos =>
                (pos < length text)%nat /\
                ((fun c => if c =? a then b else c) <$> text)
                = take pos text ++ [b]
                    ++ ((fun c => if c =? a then b else c) <$> drop (pos + 1) text)
            end) as Hsearch.
  { induction text as [|c text IHt]; [done|].
    rewrite search_single_cons. rewrite fmap_cons.
    destruct (a =? c) eqn:E.
    - apply Z.eqb_eq in E as ->. rewrite Z.eqb_refl. simpl. split; [lia|done].
    - rewrite Z.eqb_sym in E. rewrite E.
      destruct (search text [a]) as [pos|]; simpl.
      + destruct IHt as [Hpos ->]. split; [lia|done].
      + by rewrite IHt. }
  specialize (Hsearch str).
  destruct (search str [a]) as [pos|]; [|done].
  destruct Hsearch as [Hpos ->]. rewrite IH; [done|].
  rewrite length_drop. simpl. lia.
Qed.

Lemma WhiteSpaceClean_spec str :
  WhiteSpaceClean str
  = unique BothSpaces ((fun c => if c =? 10 then 32 else c) <$> str).
Proof.
  unfold WhiteSpaceClean, ReplaceString.
  by rewrite (ReplaceString_from_single 10 32) by lia.
Qed.

(** ** The pre-tokenizer *)

Lemma cut_cons c (text : list Z) i : cut (c :: text) (S i) = (c :: (cut text i).1, (cut text i).2).
Proof. reflexivity. Qed.

(** What the first alternative matches: an apostrophe followed by one of
    [s], [t], [m], [d], or by one of [re], [ve], [ll]. *)
Lemma match_contraction_Some m_text tok rest :
  match_contraction m_text = Some (tok, rest) <->
  (exists c, m_text = cp "'" :: c :: rest /\ tok = [cp "'"; c] /\
             (c = cp "s" \/ c = cp "t" \/ c = cp "m" \/ c = cp "d")) \/
  (exists a b, m_text = cp "'" :: a :: b :: rest /\ tok = [cp "'"; a; b] /\
               a <> cp "s" /\ a <> cp "t" /\ a <> cp "m" /\ a <> cp "d" /\
               ((a = cp "r" /\ b = cp "e") \/ (a = cp "v" /\ b = cp "e") \/
                (a = cp "l" /\ b = cp "l"))).
Proof.
  unfold match_contraction, at_. split.
  - destruct m_text as [|c0 [|c1 text]]; simpl; try done.
    { by rewrite andb_false_r. }
    destruct (c0 =? cp "'") eqn:H0; simpl; [|done]. apply Z.eqb_eq in H0 as ->.
    destruct ((c1 =? cp "s") || (c1 =? cp "t") || (c1 =? cp "m") || (c1 =? cp "d")) eqn:H2.
    + intros [= <- <-]. left. exists c1. repeat split; try done.
      repeat (apply orb_prop in H2 as [H2|H2]); apply Z.eqb_eq in H2; auto.
    + repeat (apply orb_false_elim in H2 as [H2 ?]).
      destruct text as [|c2 text]; simpl; [done|].
      destruct (((c1 =? cp "r") && (c2 =? cp "e")) || ((c1 =? cp "v") && (c2 =? cp "e"))
                || ((c1 =? cp "l") && (c2 =? cp "l"))) eqn:H3; [|done].
      intros [= <- <-]. right. exists c1, c2.
      repeat split; try done; try (by apply Z.eqb_neq).
      repeat (apply orb_prop in H3 as [H3|H3]);
        apply andb_prop in H3 as [Ha Hb]; apply Z.eqb_eq in Ha, Hb; auto.
  - intros [(c & -> & -> & Hc)|(a & b & -> & -> & Hs & Ht & Hm & Hd & Hab)]; simpl.
    + replace ((c =? cp "s") || (c =? cp "t") || (c =? cp "m") || (c =? cp "d")) with true; [done|].
      symmetry. destruct Hc as [-> | [-> | [-> | ->]]]; reflexivity.
    + apply Z.eqb_neq in Hs, Ht, Hm, Hd. rewrite Hs, Ht, Hm, Hd. simpl.
      replace (((a =? cp "r") && (b =? cp "e")) || ((a =? cp "v") && (b =? cp "e"))
               || ((a =? cp "l") && (b =? cp "l"))) with true; [done|].
      symmetry. destruct Hab as [[-> ->] | [[-> ->] | [-> ->]]]; reflexivity.
Qed.

(** C8, as the code has it: the first alternative of the pre-tokenizer matches
    exactly ['s], ['t], ['m], ['d] as two code points and ['re], ['ve], ['ll]
    as three; and ['t] is reached: on every text that starts with ['t] the
    scanner emits the two code points ['t] through that alternative. *)
Theorem contraction_forms_and_t_reachable category cat_L cat_N cat_Z :
  (forall m_text tok rest,
     match_contraction m_text = Some (tok, rest) ->
     m_text = tok ++ rest /\
     (tok = U "'s" \/ tok = U "'t" \/ tok = U "'m" \/ tok = U "'d" \/
      tok = U "'re" \/ tok = U "'ve" \/ tok = U "'ll")) /\
  (forall tok rest,
     tok = U "'s" \/ tok = U "'t" \/ tok = U "'m" \/ tok = U "'d" \/
     tok = U "'re" \/ tok = U "'ve" \/ tok = U "'ll" ->
     match_contraction (tok ++ rest) = Some (tok, rest)) /\
  (forall rest,
     match_contraction (U "'t" ++ rest) = Some (U "'t", rest) /\
     TryMatch category cat_L cat_N cat_Z (U "'t" ++ rest) = (U "'t", rest) /\
     GetNextToken category cat_L cat_N cat_Z (U "'t" ++ rest) = (Some (U "'t"), rest)).
Proof.
  split; [|split].
  - intros m_text tok rest [(c & -> & -> & Hc)|(a & b & -> & -> & _ & _ & _ & _ & Hab)]%match_contraction_Some.
    + split; [done|]. destruct Hc as [-> | [-> | [-> | ->]]]; auto.
    + split; [done|]. destruct Hab as [[-> ->] | [[-> ->] | [-> ->]]]; auto 10.
  - intros tok rest Htok.
    repeat (destruct Htok as [-> | Htok]); try subst tok; reflexivity.
  - intros rest. repeat split; reflexivity.
Qed.

(** C8, as the claim has it, fails: the text ['t] makes the first alternative
    emit ['t]. *)
Lemma contraction_t_unreachable_counterexample :
  ~ (forall m_text rest, match_contraction m_text <> Some (U "'t", rest)).
Proof. intros H. by apply (H (U "'t") []). Qed.

Lemma contraction_forms_and_t_reachable_witness :
  U "'re" = U "'re" ++ [] /\
  (U "'re" = U "'s" \/ U "'re" = U "'t" \/ U "'re" = U "'m" \/ U "'re" = U "'d" \/
   U "'re" = U "'re" \/ U "'re" = U "'ve" \/ U "'re" = U "'ll").
Proof.
  apply (proj1 (contraction_forms_and_t_reachable (fun _ => 0) 1 2 4) (U "'re") (U "'re") []).
  reflexivity.
Defined.

(** ** The special-token splitter *)

Lemma starts_with_spec pat text :
  starts_with pat text = true <-> exists rest, text = pat ++ rest.
Proof.
  revert text. induction pat as [|a pat IH]; intros text; simpl.
  - split; [intros _; by exists text|done].
  - destruct text as [|b text]; simpl.
    + split; [done|]. by intros [rest Hrest].
    + rewrite andb_true_iff, Z.eqb_eq, IH. split.
      * intros [-> [rest ->]]. by exists rest.
      * intros [rest [= -> ->]]. split; [done|]. by exists rest.
Qed.

Lemma starts_with_take pat text :
  starts_with pat text = true -> take (length pat) text = pat.
Proof. intros [rest ->]%starts_with_spec. by rewrite take_app_length. Qed.

(** [search] returns the first offset at which the pattern occurs. *)
Lemma search_Some text pat n :
  search text pat = Some n ->
  starts_with pat (drop n text) = true /\
  forall j, (j < n)%nat -> starts_with pat (drop j text) = false.
Proof.
  revert n. induction text as [|c text IH]; intros n.
  - simpl. destruct (starts_with pat []) eqn:Hs; [|done].
    intros [= <-]. split; [done|]. intros j Hj. lia.
  - cbn [search]. destruct (starts_with pat (c :: text)) eqn:Hs.
    + intros [= <-]. split; [done|]. intros j Hj. lia.
    + destruct (search text pat) as [k|] eqn:Hk; [|done].
      intros [= <-]. destruct (IH k eq_refl) as [H1 H2].
      split; [done|]. intros [|j] Hj; [done|]. apply H2. lia.
Qed.

Lemma search_None text pat :
  search text pat = None -> forall j, starts_with pat (drop j text) = false.
Proof.
  induction text as [|c text IH].
  - simpl. destruct (starts_with pat []) eqn:Hs; [done|].
    intros _ j. by rewrite drop_nil.
  - cbn [search]. destruct (starts_with pat (c :: text)) eqn:Hs; [done|].
    destruct (search text pat) as [k|] eqn:Hk; [done|].
    intros _ [|j]; [done|]. by apply IH.
Qed.

Lemma search_None_intro text pat :
  (forall j, starts_with pat (drop j text) = false) -> search text pat = None.
Proof.
  intros H. destruct (search text pat) as [n|] eqn:Hn; [|done].
  apply search_Some in Hn as [Hn _]. by rewrite H in Hn.
Qed.

(** The text before the first occurrence of a token does not hold the
    token. *)
Lemma search_take text pat n :
  pat <> [] -> search text pat = Some n -> search (take n text) pat = None.
Proof.
  intros Hpat [_ Hfirst]%search_Some. apply search_None_intro. intros j.
  destruct (starts_with pat (drop j (take n text))) eqn:Hs; [|done].
  apply starts_with_spec in Hs as [rest Hrest].
  assert (j < length (take n text))%nat as Hj.
  { destruct (decide (j < length (take n text))%nat); [done|].
    rewrite drop_ge in Hrest by lia. by destruct pat. }
  rewrite <- (Hfirst j) by (rewrite length_take in Hj; lia).
  symmetry. apply starts_with_spec.
  exists (rest ++ drop n text).
  rewrite <- (take_drop n text) at 1.
  rewrite drop_app_le by lia.
  by rewrite Hrest, app_assoc.
Qed.

(** The pieces of an untagged segment: each is the token, tagged, or a text
    free of the token, untagged. *)
Lemma split_segment_pieces fuel rest st seg :
  st_str st <> [] ->
  seg ∈ split_segment fuel rest st ->
  (seg.2 = -1 /\ search seg.1 (st_str st) = None) \/ seg = (st_str st, st_id st).
Proof.
  intros Hpat. revert rest. induction fuel as [|fuel IH]; intros rest; simpl.
  { by intros ?%elem_of_nil. }
  destruct rest as [|c rest]; [by intros ?%elem_of_nil|].
  destruct (search (c :: rest) (st_str st)) as [n|] eqn:Hn.
  - intros [Hin|Hin]%elem_of_app.
    + destruct (negb (n =? 0)%nat); [|by apply elem_of_nil in Hin].
      apply list_elem_of_singleton in Hin as ->. left. split; [done|].
      by apply search_take.
    + apply elem_of_cons in Hin as [->|Hin]; [|by apply IH in Hin].
      right. f_equal. apply starts_with_take. by apply search_Some in Hn as [? _].
  - intros ->%list_elem_of_singleton. by left.
Qed.

(** No text is lost: the fuel is enough. *)
Lemma split_segment_concat fuel rest st :
  st_str st <> [] -> (length rest <= fuel)%nat ->
  concat (split_segment fuel rest st).*1 = rest.
Proof.
  intros Hpat. revert rest. induction fuel as [|fuel IH]; intros rest Hlen; simpl.
  { destruct rest; [done|simpl in Hlen; lia]. }
  destruct rest as [|c rest]; [done|].
  destruct (search (c :: rest) (st_str st)) as [n|] eqn:Hn.
  - rewrite fmap_app, concat_app, fmap_cons, concat_cons. cbn [fst].
    rewrite IH.
    + assert (concat (if negb (n =? 0)%nat then [(take n (c :: rest), -1)] else []).*1
              = take n (c :: rest)) as ->.
      { destruct (n =? 0)%nat eqn:E; simpl; [|by rewrite app_nil_r].
        apply Nat.eqb_eq in E as ->. done. }
      transitivity (take n (c :: rest) ++ drop n (c :: rest)); [|apply take_drop].
      f_equal. rewrite <- drop_drop. apply take_drop.
    + rewrite length_drop. simpl in *.
      assert (length (st_str st) <> 0)%nat by (by destruct (st_str st)). lia.
  - simpl. by rewrite app_nil_r.
Qed.

Lemma split_by_token_cons st str res :
  split_by_token st (str :: res) =
  (if negb (str.2 =? -1) then [str] else split_segment (length str.1) str.1 st)
    ++ split_by_token st res.
Proof. reflexivity. Qed.

Lemma split_by_token_concat st res :
  st_str st <> [] -> concat (split_by_token st res).*1 = concat res.*1.
Proof.
  intros Hpat. induction res as [|str res IH]; [done|].
  rewrite split_by_token_cons, fmap_app, concat_app, IH, fmap_cons, concat_cons.
  f_equal. destruct (negb (str.2 =? -1)).
  - simpl. by rewrite app_nil_r.
  - by apply split_segment_concat.
Qed.

Lemma split_by_token_pieces st res seg :
  st_str st <> [] ->
  seg ∈ split_by_token st res ->
  (seg ∈ res /\ seg.2 <> -1) \/
  (seg.2 = -1 /\ search seg.1 (st_str st) = None) \/
  seg = (st_str st, st_id st).
Proof.
  intros Hpat. unfold split_by_token.
  intros (str & Hin & Hstr)%list_elem_of_bind.
  destruct (str.2 =? -1) eqn:Htag; simpl in Hin.
  - right. by eapply split_segment_pieces.
  - apply list_elem_of_singleton in Hin as ->. left. split; [done|]. by apply Z.eqb_neq.
Qed.



(** ** Loading *)

Lemma bind_Ok {A B} (c : result A) (k : A -> result B) b :
  c ≫= k = Ok b -> exists a, c = Ok a /\ k a = Ok b.
Proof. destruct c as [a|msg]; [|done]. intros H. by exists a. Qed.

Lemma for_each_Err {A S} (body : S -> A -> result S) (l : list A) (x : A) (s : S) :
  x ∈ l -> (forall s', exists msg, body s' x = Err msg) ->
  exists msg, for_each body l s = Err msg.
Proof.
  intros Hin Hbody. revert s. induction l as [|y l IH]; intros s.
  { by apply elem_of_nil in Hin. }
  simpl. apply elem_of_cons in Hin as [<-|Hin].
  - destruct (Hbody s) as [msg ->]. by exists msg.
  - destruct (body s y) as [s'|msg]; [|by exists msg]. by apply IH.
Qed.

(** *** The byte encoder *)

Lemma encode_own_Ok vocab be i be1 :
  encode_own vocab be i = Ok be1 ->
  exists v, vocab !! EncodeUTF8Char (Z.of_nat i) = Some v /\ be1 = <[i := v]> be.
Proof.
  unfold encode_own, GetVocabIndex.
  destruct (vocab !! EncodeUTF8Char (Z.of_nat i)) as [v|]; [|done].
  intros [= <-]. by exists v.
Qed.

Lemma encode_next_Ok vocab s i s1 :
  encode_next vocab s i = Ok s1 ->
  exists v, vocab !! EncodeUTF8Char s.1 = Some v /\ s1 = (s.1 + 1, <[i := v]> s.2).
Proof.
  unfold encode_next, GetVocabIndex.
  destruct (vocab !! EncodeUTF8Char s.1) as [v|]; [|done].
  intros [= <-]. by exists v.
Qed.

Lemma for_each_encode_own vocab is_ : forall be be',
  for_each (encode_own vocab) is_ be = Ok be' ->
  length be' = length be /\
  (forall j, j ∈ is_ -> (j < length be)%nat ->
     exists v, vocab !! EncodeUTF8Char (Z.of_nat j) = Some v /\ be' !! j = Some v) /\
  (forall j, j ∉ is_ -> be' !! j = be !! j).
Proof.
  induction is_ as [|i is_ IH]; intros be be'; simpl.
  { intros [= <-]. split; [done|]. split; [|done]. by intros j ?%elem_of_nil. }
  destruct (encode_own vocab be i) as [be1|] eqn:E; [|done]; simpl.
  apply encode_own_Ok in E as (v & Hv & ->).
  intros (Hlen & Hin & Hout)%IH. rewrite length_insert in Hlen, Hin.
  split; [done|]. split.
  - intros j Hj Hlt. destruct (decide (j ∈ is_)) as [Hj'|Hj']; [by apply Hin|].
    apply elem_of_cons in Hj as [->|Hj]; [|done].
    exists v. split; [done|]. rewrite Hout by done. by apply list_lookup_insert_eq.
  - intros j Hj. apply not_elem_of_cons in Hj as [Hne Hj].
    rewrite Hout by done. by apply list_lookup_insert_ne.
Qed.

Lemma for_each_encode_next vocab is_ : forall index be index' be',
  NoDup is_ ->
  for_each (encode_next vocab) is_ (index, be) = Ok (index', be') ->
  index' = index + Z.of_nat (length is_) /\
  length be' = length be /\
  (forall k j, is_ !! k = Some j -> (j < length be)%nat ->
     exists v, vocab !! EncodeUTF8Char (index + Z.of_nat k) = Some v /\ be' !! j = Some v) /\
  (forall j, j ∉ is_ -> be' !! j = be !! j).
Proof.
  induction is_ as [|i is_ IH]; intros index be index' be' Hnd; simpl.
  { intros [= <- <-]. split; [lia|]. split; [done|]. split; [|done]. by intros k j ?. }
  destruct (encode_next vocab (index, be) i) as [s1|] eqn:E; [|done]; simpl.
  apply encode_next_Ok in E as (v & Hv & ->). cbn [fst snd] in *.
  apply NoDup_cons in Hnd as [Hi Hnd].
  intros (Hidx & Hlen & Hin & Hout)%IH; [|done]. rewrite length_insert in Hlen, Hin.
  split; [lia|]. split; [done|]. split.
  - intros [|k] j Hk Hlt; simpl in Hk.
    + injection Hk as <-. exists v. rewrite Z.add_0_r. split; [done|].
      rewrite Hout by done. by apply list_lookup_insert_eq.
    + destruct (Hin k j Hk Hlt) as (w & Hw & Hbe). exists w. split; [|done].
      rewrite <- Hw. f_equal. f_equal. lia.
  - intros j Hj. apply not_elem_of_cons in Hj as [Hne Hj].
    rewrite Hout by done. by apply list_lookup_insert_ne.
Qed.

Lemma build_byte_encoder_Ok vocab be :
  build_byte_encoder vocab = Ok be ->
  exists be1 be2 be3 be4 be5 i4 i5 i6,
    for_each (encode_own vocab) (seq 33 94) (replicate 256 0) = Ok be1 /\
    for_each (encode_own vocab) (seq 161 12) be1 = Ok be2 /\
    for_each (encode_own vocab) (seq 174 82) be2 = Ok be3 /\
    for_each (encode_next vocab) (seq 0 33) (256, be3) = Ok (i4, be4) /\
    for_each (encode_next vocab) (seq 127 34) (i4, be4) = Ok (i5, be5) /\
    encode_next vocab (i5, be5) 173%nat = Ok (i6, be).
Proof.
  unfold build_byte_encoder.
  intros (be1 & E1 & H)%bind_Ok. apply bind_Ok in H as (be2 & E2 & H).
  apply bind_Ok in H as (be3 & E3 & H). apply bind_Ok in H as ([i4 be4] & E4 & H).
  apply bind_Ok in H as ([i5 be5] & E5 & H). apply bind_Ok in H as ([i6 be6] & E6 & H).
  injection H as <-. by exists be1, be2, be3, be4, be5, i4, i5, i6.
Qed.

Local Ltac seq_side := rewrite elem_of_seq; lia.

(** C3, as the code has it: in the table [Load] builds, every byte of the
    ranges 33-126, 161-172 and 174-255 has the vocabulary id of the character
    of its own code point, and the 68 other bytes, in byte order, have the ids
    of the characters of the code points 256, 257, ... 323. *)
Theorem byte_encoder_table vocab be :
  build_byte_encoder vocab = Ok be ->
  length be = 256%nat /\
  (forall b : nat,
     (33 <= b <= 126)%nat \/ (161 <= b <= 172)%nat \/ (174 <= b <= 255)%nat ->
     exists v, vocab !! EncodeUTF8Char (Z.of_nat b) = Some v /\ be !! b = Some v) /\
  (forall (k b : nat), nonprintable_bytes !! k = Some b ->
     exists v, vocab !! EncodeUTF8Char (256 + Z.of_nat k) = Some v /\ be !! b = Some v).
Proof.
  intros (be1 & be2 & be3 & be4 & be5 & i4 & i5 & i6 & E1 & E2 & E3 & E4 & E5 & E6)%build_byte_encoder_Ok.
  apply for_each_encode_own in E1 as (L1 & In1 & Out1).
  apply for_each_encode_own in E2 as (L2 & In2 & Out2).
  apply for_each_encode_own in E3 as (L3 & In3 & Out3).
  apply for_each_encode_next in E4 as (-> & L4 & In4 & Out4); [|apply NoDup_seq].
  apply for_each_encode_next in E5 as (-> & L5 & In5 & Out5); [|apply NoDup_seq].
  apply encode_next_Ok in E6 as (v6 & Hv6 & [= -> ->]). cbn [fst snd] in *.
  rewrite length_replicate in L1.
  rewrite !length_seq in *.
  assert (length be5 = 256%nat) as L by congruence.
  split; [by rewrite length_insert|]. split.
  - intros b Hb.
    rewrite list_lookup_insert_ne by lia.
    rewrite Out5 by seq_side. rewrite Out4 by seq_side.
    destruct Hb as [Hb|[Hb|Hb]].
    + rewrite Out3 by seq_side. rewrite Out2 by seq_side.
      apply In1; [seq_side|rewrite length_replicate; lia].
    + rewrite Out3 by seq_side. apply In2; [seq_side|lia].
    + apply In3; [seq_side|lia].
  - intros k b Hk. unfold nonprintable_bytes in Hk.
    apply lookup_app_Some in Hk as [Hk|[Hlen Hk]].
    { pose proof (lookup_lt_Some _ _ _ Hk) as Hlt. rewrite length_seq in Hlt.
      pose proof Hk as Hb. apply lookup_seq in Hb as [-> _]. simpl.
      rewrite list_lookup_insert_ne by lia. rewrite Out5 by seq_side.
      apply In4; [done|lia]. }
    rewrite length_seq in Hlen, Hk.
    apply lookup_app_Some in Hk as [Hk|[Hlen' Hk]].
    { pose proof (lookup_lt_Some _ _ _ Hk) as Hlt. rewrite length_seq in Hlt.
      pose proof Hk as Hb. apply lookup_seq in Hb as [-> _].
      rewrite list_lookup_insert_ne by lia.
      destruct (In5 _ _ Hk) as (v & Hv & Hbe); [lia|].
      exists v. split; [|done]. rewrite <- Hv. f_equal. f_equal. lia. }
    rewrite length_seq in Hlen', Hk.
    apply list_lookup_singleton_Some in Hk as [Hk <-].
    exists v6. split.
    + rewrite <- Hv6. f_equal. f_equal. lia.
    + apply list_lookup_insert_eq. lia.
Qed.

Lemma build_byte_encoder_example :
  exists be, build_byte_encoder example_json = Ok be.
Proof. eexists. vm_compute. reflexivity. Qed.

Lemma byte_encoder_table_witness :
  length example_byte_encoder = 256%nat /\
  (forall b : nat,
     (33 <= b <= 126)%nat \/ (161 <= b <= 172)%nat \/ (174 <= b <= 255)%nat ->
     exists v, example_json !! EncodeUTF8Char (Z.of_nat b) = Some v /\
               example_byte_encoder !! b = Some v) /\
  (forall (k b : nat), nonprintable_bytes !! k = Some b ->
     exists v, example_json !! EncodeUTF8Char (256 + Z.of_nat k) = Some v /\
               example_byte_encoder !! b = Some v).
Proof.
  apply (byte_encoder_table example_json example_byte_encoder).
  vm_compute. reflexivity.
Defined.

(** C3, as the claim has it, fails: were the 68 other bytes given the
    characters of their own code points (the code points 0-255 outside the
    printable block, in byte order), byte 0 would have the id of the
    character U+0000; it has the id of U+0100. *)
Lemma byte_encoder_second_block_counterexample :
  ~ (forall vocab be, build_byte_encoder vocab = Ok be ->
       forall (k b : nat), nonprintable_bytes !! k = Some b ->
         be !! b = vocab !! EncodeUTF8Char (Z.of_nat b)).
Proof.
  intros H.
  specialize (H example_json example_byte_encoder eq_refl 0%nat 0%nat eq_refl).
  vm_compute in H. discriminate H.
Qed.

(** *** The merges *)

Lemma add32_succ i : 0 <= i < INT_MAX -> add32 i 1 = i + 1.
Proof. intros Hi. apply wrap32_small. unfold INT_MAX in *. lia. Qed.

Lemma merges_line_rule vocab s line c rest :
  remove_char "013" line = String c rest ->
  c <> "#"%char \/ s.1 <> 0 ->
  merges_line vocab s line = record_merge vocab s (String c rest).
Proof.
  intros Hline Hc. unfold merges_line. rewrite Hline.
  destruct (Ascii.eqb c "#") eqn:E1; [|done].
  destruct (s.1 =? 0) eqn:E2; [|done].
  apply Ascii.eqb_eq in E1. apply Z.eqb_eq in E2. by destruct Hc.
Qed.

Lemma merges_line_comment vocab s line rest :
  remove_char "013" line = String "#" rest ->
  merges_line vocab s line
  = if s.1 =? 0 then Ok s else record_merge vocab s (String "#" rest).
Proof. intros Hline. unfold merges_line. rewrite Hline. by destruct (s.1 =? 0). Qed.

Lemma record_merge_absent vocab s line pos :
  find_char " " line = Some pos ->
  vocab !! String.substring 0 pos line = None \/
  vocab !! substr_from (pos + 1) line = None \/
  vocab !! (String.substring 0 pos line ++ substr_from (pos + 1) line)%string = None ->
  exists msg, record_merge vocab s line = Err msg.
Proof.
  intros Hpos Habs. unfold record_merge. rewrite Hpos.
  destruct (narrow_int _) as [n|msg]; [|by exists msg]. simpl.
  unfold GetVocabIndex.
  destruct (vocab !! String.substring 0 pos line) as [i1|]; [|by eexists]. simpl.
  destruct (vocab !! substr_from (pos + 1) line) as [i2|]; [|by eexists]. simpl.
  destruct (vocab !! (_ ++ _)%string) as [i12|]; [|by eexists].
  by destruct Habs as [?|[?|?]].
Qed.

(** C2, as the code has it: a merges line gets the ids its two words and
    their concatenation already have in the vocabulary, which loading the
    merges never extends; when one of the three is absent the line fails, and
    [Load] with it, with an error. *)
Theorem merge_words_are_looked_up_not_allocated vocab :
  (forall s line pos i1 i2 i12,
     let w1 := String.substring 0 pos line in
     let w2 := substr_from (pos + 1) line in
     find_char " " line = Some pos ->
     (String.length w1 + String.length w2 <= Z.to_nat INT_MAX)%nat ->
     vocab !! w1 = Some i1 -> vocab !! w2 = Some i2 ->
     vocab !! (w1 ++ w2)%string = Some i12 ->
     record_merge vocab s line
     = Ok (add32 s.1 1,
           <[(i1, i2) :=
               mkBpeNode i12 s.1
                 (if contains "</w>" w2 || contains "</w>" w1
                  then Z.of_nat (String.length w1 + String.length w2) - 4
                  else Z.of_nat (String.length w1 + String.length w2))]> s.2)) /\
  (forall s line pos,
     find_char " " line = Some pos ->
     vocab !! String.substring 0 pos line = None \/
     vocab !! substr_from (pos + 1) line = None \/
     vocab !! (String.substring 0 pos line ++ substr_from (pos + 1) line)%string = None ->
     exists msg, record_merge vocab s line = Err msg) /\
  (forall ustring_of_string tok_json merges_stream unk_token special_tokens line c rest pos,
     vocab = (find_unk_token tok_json unk_token).1 ->
     line ∈ getlines "" merges_stream ->
     remove_char "013" line = String c rest -> c <> "#"%char ->
     find_char " " (String c rest) = Some pos ->
     vocab !! String.substring 0 pos (String c rest) = None \/
     vocab !! substr_from (pos + 1) (String c rest) = None \/
     vocab !! (String.substring 0 pos (String c rest)
               ++ substr_from (pos + 1) (String c rest))%string = None ->
     exists msg,
       Load ustring_of_string tok_json merges_stream unk_token special_tokens = Err msg).
Proof.
  split; [|split].
  - intros s line pos i1 i2 i12 w1 w2 Hpos Hlen H1 H2 H12.
    unfold record_merge. rewrite Hpos. fold w1 w2. unfold narrow_int.
    destruct (Z.of_nat _ <=? INT_MAX) eqn:E; [|apply Z.leb_gt in E; unfold INT_MAX in *; lia].
    simpl. unfold GetVocabIndex. rewrite H1. simpl. rewrite H2. simpl. rewrite H12. simpl.
    by destruct (contains "</w>" w2 || contains "</w>" w1).
  - intros s line pos. apply record_merge_absent.
  - intros ustring_of_string tok_json merges_stream unk_token special_tokens line c rest pos
      -> Hin Hline Hc Hpos Habs.
    unfold Load. destruct (find_unk_token tok_json unk_token) as [vocab_map unk_id].
    cbn [fst] in Habs.
    destruct (build_byte_encoder vocab_map) as [be|msg]; [|by exists msg]. simpl.
    destruct (for_each_Err (merges_line vocab_map) (getlines "" merges_stream) line (0, ∅) Hin)
      as [msg Hmsg].
    + intros s'. rewrite (merges_line_rule _ _ _ c rest) by auto.
      by eapply record_merge_absent.
    + unfold load_merges. rewrite Hmsg. by exists msg.
Qed.

(** C2, as the claim has it, fails: a merges line with a word that the
    vocabulary lacks makes [Load] fail; no id is made for the word. *)
Lemma merge_word_allocated_counterexample :
  Load ascii_decode example_json (lines ["a b"; "a zz"]%string) "<|endoftext|>"
    (Some example_special)
  = Err "Cannot find word in vocabulary: zz".
Proof. vm_compute. reflexivity. Qed.

Lemma merge_words_are_looked_up_not_allocated_witness :
  exists msg, record_merge example_json (0, ∅) "a zz" = Err msg.
Proof.
  apply (proj1 (proj2 (merge_words_are_looked_up_not_allocated example_json))
           (0, ∅) "a zz"%string 1%nat).
  - reflexivity.
  - right. left. vm_compute. reflexivity.
Defined.

Lemma for_each_app {A S} (body : S -> A -> result S) (l1 l2 : list A) : forall s,
  for_each body (l1 ++ l2) s = for_each body l1 s ≫= for_each body l2.
Proof.
  induction l1 as [|x l1 IH]; intros s; [done|].
  cbn [for_each app]. destruct (body s x) as [s1|msg]; [|done]. apply IH.
Qed.

Lemma record_merge_index vocab s line s' :
  0 <= s.1 < INT_MAX -> record_merge vocab s line = Ok s' -> s'.1 = s.1 + 1.
Proof.
  intros Hs. unfold record_merge.
  destruct (find_char " " line) as [pos|]; [|done].
  intros (n & _ & H)%bind_Ok. apply bind_Ok in H as (i1 & _ & H).
  apply bind_Ok in H as (i2 & _ & H). apply bind_Ok in H as (i12 & _ & H).
  injection H as <-. cbn [fst]. by rewrite add32_succ.
Qed.

Lemma merges_line_blank vocab s line :
  remove_char "013" line = EmptyString -> merges_line vocab s line = Ok s.
Proof. intros Hline. unfold merges_line. by rewrite Hline. Qed.

Lemma merges_line_skipped vocab s line :
  s.1 = 0 -> blank_or_comment line = true -> merges_line vocab s line = Ok s.
Proof.
  unfold merges_line, blank_or_comment. intros Hs.
  destruct (remove_char "013" line) as [|c rest]; [done|].
  intros ->. by rewrite Hs.
Qed.

Lemma merges_line_recorded vocab s line s' :
  0 <= s.1 < INT_MAX -> blank_or_comment line = false ->
  merges_line vocab s line = Ok s' -> s'.1 = s.1 + 1.
Proof.
  unfold merges_line, blank_or_comment. intros Hs.
  destruct (remove_char "013" line) as [|c rest]; [done|].
  intros ->. cbn [andb]. by apply record_merge_index.
Qed.

Lemma merges_line_index vocab s line s' :
  0 <= s.1 < INT_MAX -> merges_line vocab s line = Ok s' -> s.1 <= s'.1 <= s.1 + 1.
Proof.
  unfold merges_line. intros Hs.
  destruct (remove_char "013" line) as [|c rest]; [intros [= <-]; lia|].
  destruct (Ascii.eqb c "#" && (s.1 =? 0)); [intros [= <-]; lia|].
  intros H%record_merge_index; [lia|done].
Qed.

(** Blank and [#] lines at the start of the text leave the loop where it
    began. *)
Lemma merges_loop_skipped vocab pre s :
  s.1 = 0 -> forallb blank_or_comment pre = true ->
  for_each (merges_line vocab) pre s = Ok s.
Proof.
  intros Hs. induction pre as [|line pre IH]; [done|].
  cbn [forallb for_each]. intros [Hline Hpre]%andb_prop.
  rewrite merges_line_skipped by done. by apply IH.
Qed.

(** [index] never falls, and it has left 0 as soon as one line was neither
    blank nor a [#] line. *)
Lemma merges_loop_index vocab pre : forall s s',
  0 <= s.1 -> s.1 + Z.of_nat (length pre) <= INT_MAX ->
  for_each (merges_line vocab) pre s = Ok s' ->
  s.1 <= s'.1 /\ (forallb blank_or_comment pre = false -> s'.1 <> 0).
Proof.
  induction pre as [|line pre IH]; intros s s' Hs Hlen.
  - intros [= <-]. split; [lia|done].
  - cbn [for_each length] in *. intros (s1 & Hline & Hrest)%bind_Ok.
    assert (0 <= s.1 < INT_MAX) as Hs1 by lia.
    pose proof (merges_line_index _ _ _ _ Hs1 Hline) as Hidx.
    apply IH in Hrest as [Hle Hnz]; [|lia..].
    split; [lia|]. cbn [forallb].
    destruct (blank_or_comment line) eqn:Hboc; [exact Hnz|].
    intros _. pose proof (merges_line_recorded _ _ _ _ Hs1 Hboc Hline). lia.
Qed.

(** C7, as the code has it: a line starting with [#] is skipped when, and
    only when, no merge rule has been recorded before it, that is while
    [index] is 0; this holds for the first line of the text, and a recorded
    rule makes [index] positive, so that a later [#] line is parsed as a
    merge rule.  A blank line is skipped wherever it stands and leaves
    [index] and the table as they are, so that [index] is 0 exactly as long
    as every line read was blank or started with [#]: in a text of at most
    [INT_MAX] lines the [#] line after such lines is skipped, and the [#]
    line after any other line is parsed as a rule. *)
Theorem comment_line_skipped_while_no_rule_recorded vocab :
  (forall s line rest,
     remove_char "013" line = String "#" rest ->
     merges_line vocab s line
     = if s.1 =? 0 then Ok s else record_merge vocab s (String "#" rest)) /\
  (forall merges_stream first others rest,
     getlines "" merges_stream = first :: others ->
     remove_char "013" first = String "#" rest ->
     load_merges vocab merges_stream = for_each (merges_line vocab) others (0, ∅)) /\
  (forall s line s',
     0 <= s.1 < INT_MAX ->
     record_merge vocab s line = Ok s' -> s'.1 = s.1 + 1 /\ s'.1 <> 0) /\
  (forall s line,
     remove_char "013" line = EmptyString -> merges_line vocab s line = Ok s) /\
  (forall pre s,
     Z.of_nat (length pre) <= INT_MAX ->
     for_each (merges_line vocab) pre (0, ∅) = Ok s ->
     (s.1 = 0 <-> forallb blank_or_comment pre = true) /\
     (s.1 = 0 -> s = (0, ∅))) /\
  (forall merges_stream pre line rest post,
     getlines "" merges_stream = pre ++ line :: post ->
     remove_char "013" line = String "#" rest ->
     Z.of_nat (length pre) <= INT_MAX ->
     load_merges vocab merges_stream
     = if forallb blank_or_comment pre
       then for_each (merges_line vocab) post (0, ∅)
       else s ← for_each (merges_line vocab) pre (0, ∅);
            s ← record_merge vocab s (String "#" rest);
            for_each (merges_line vocab) post s).
Proof.
  split; [|split; [|split; [|split; [|split]]]].
  - intros s line rest. apply merges_line_comment.
  - intros merges_stream first others rest Hlines Hfirst.
    unfold load_merges. rewrite Hlines. cbn [for_each].
    by rewrite (merges_line_comment _ _ _ _ Hfirst).
  - intros s line s' Hs H. apply record_merge_index in H; [lia|done].
  - intros s line. apply merges_line_blank.
  - intros pre s Hlen Hpre.
    assert (s.1 = 0 <-> forallb blank_or_comment pre = true) as Hiff.
    { destruct (forallb blank_or_comment pre) eqn:Hboc.
      - rewrite merges_loop_skipped in Hpre by done. by injection Hpre as <-.
      - apply merges_loop_index in Hpre as [_ Hnz]; [|simpl; lia..].
        split; [|done]. intros H0. by destruct Hnz. }
    split; [exact Hiff|]. intros Hboc%Hiff.
    rewrite merges_loop_skipped in Hpre by done. by injection Hpre as <-.
  - intros merges_stream pre line rest post Hlines Hline Hlen.
    unfold load_merges. rewrite Hlines, for_each_app.
    destruct (forallb blank_or_comment pre) eqn:Hboc.
    + rewrite merges_loop_skipped by done.
      change (for_each (merges_line vocab) (line :: post) (0, ∅)
              = for_each (merges_line vocab) post (0, ∅)).
      cbn [for_each]. by rewrite (merges_line_comment _ _ _ _ Hline).
    + destruct (for_each (merges_line vocab) pre (0, ∅)) as [s|msg] eqn:Hpre; [|done].
      apply merges_loop_index in Hpre as [_ Hnz]; [|simpl; lia..].
      specialize (Hnz Hboc).
      change (Ok s ≫= for_each (merges_line vocab) (line :: post))
        with (for_each (merges_line vocab) (line :: post) s).
      change (Ok s ≫= ?k) with (k s). cbn beta. cbn [for_each].
      rewrite (merges_line_comment _ _ _ _ Hline).
      by destruct (s.1 =? 0) eqn:E; [apply Z.eqb_eq in E|].
Qed.

(** C7, as the claim has it, fails: the second line of this text starts with
    [#] and is skipped, because the line before it was skipped too; parsed as
    a merge rule it would have been recorded.  It is skipped after a blank
    line as well. *)
Lemma later_comment_line_counterexample :
  getlines "" (lines ["#version: 0.2"; "#x y"]%string) = ["#version: 0.2"; "#x y"]%string /\
  load_merges example_json (lines ["#version: 0.2"; "#x y"]%string) = Ok (0, ∅) /\
  record_merge example_json (0, ∅) "#x y"
  = Ok (1, {[ (514, 88) := mkBpeNode 515 0 3 ]}) /\
  getlines "" (lines [""; "#x y"]%string) = [""; "#x y"]%string /\
  load_merges example_json (lines [""; "#x y"]%string) = Ok (0, ∅).
Proof. vm_compute. repeat split. Qed.

Lemma comment_line_skipped_while_no_rule_recorded_witness :
  merges_line example_json (1, ∅) "#x y"
  = if (1, ∅ : gmap (Z * Z) BpeNode).1 =? 0 then Ok (1, ∅)
    else record_merge example_json (1, ∅) "#x y".
Proof.
  apply (proj1 (comment_line_skipped_while_no_rule_recorded example_json)
           (1, ∅) "#x y"%string "x y"%string).
  reflexivity.
Defined.

(** The ranks of the table that the merges make are the numbers of the
    recorded rules, below the number of lines. *)
Lemma merges_line_ranks vocab s line s' :
  merges_line vocab s line = Ok s' ->
  0 <= s.1 < INT_MAX ->
  map_Forall (fun _ node => 0 <= bpe_value node < s.1) s.2 ->
  s.1 <= s'.1 <= s.1 + 1 /\
  map_Forall (fun _ node => 0 <= bpe_value node < s'.1) s'.2.
Proof.
  unfold merges_line. intros H Hs Hall.
  assert (Ok s = Ok s' -> s.1 <= s'.1 <= s.1 + 1 /\
          map_Forall (fun _ node => 0 <= bpe_value node < s'.1) s'.2) as Hskip.
  { intros [= <-]. split; [lia|done]. }
  destruct (remove_char "013" line) as [|c rest]; [by apply Hskip|].
  destruct (Ascii.eqb c "#" && (s.1 =? 0)); [by apply Hskip|].
  unfold record_merge in H.
  destruct (find_char " " (String c rest)) as [pos|]; [|done].
  apply bind_Ok in H as (n & _ & H). apply bind_Ok in H as (i1 & _ & H).
  apply bind_Ok in H as (i2 & _ & H). apply bind_Ok in H as (i12 & _ & H).
  injection H as <-. cbn [fst snd]. rewrite add32_succ by done.
  split; [lia|]. apply map_Forall_insert_2; [simpl; lia|].
  eapply map_Forall_impl; [exact Hall|]. simpl. intros _ node ?. lia.
Qed.

Lemma load_merges_ranks vocab merges_stream index table :
  load_merges vocab merges_stream = Ok (index, table) ->
  Z.of_nat (length (getlines "" merges_stream)) <= INT_MAX ->
  map_Forall (fun _ node => bpe_value node < INT_MAX) table.
Proof.
  unfold load_merges.
  assert (forall l s s',
            for_each (merges_line vocab) l s = Ok s' ->
            0 <= s.1 -> s.1 + Z.of_nat (length l) <= INT_MAX ->
            map_Forall (fun _ node => 0 <= bpe_value node < s.1) s.2 ->
            s'.1 <= s.1 + Z.of_nat (length l) /\
            map_Forall (fun _ node => 0 <= bpe_value node < s'.1) s'.2) as Hloop.
  { induction l as [|line l IH]; intros s s' Hrun H0 Hlen Hall.
    - injection Hrun as <-. split; [simpl; lia|done].
    - cbn [for_each] in Hrun. apply bind_Ok in Hrun as (s1 & Hline & Hrun).
      simpl in Hlen.
      apply merges_line_ranks in Hline as [Hidx Hall1]; [|lia|done].
      apply IH in Hrun as [Hidx' Hall']; [|lia|lia|done].
      split; [simpl; lia|done]. }
  intros Hrun Hlen.
  apply Hloop in Hrun as [Hidx Hall]; [|done|simpl; lia|by apply map_Forall_empty].
  eapply map_Forall_impl; [exact Hall|]. simpl in *. intros _ node ?. lia.
Qed.

(** ** The tokenizer front end *)

Example example_tokenizer_loaded :
  is_Ok (Load ascii_decode example_json example_merges "<|endoftext|>"
           (Some example_special)) = true.
Proof. vm_compute. reflexivity. Qed.

Example example_special_ids :
  GetEncoding example_tokenizer "<|startoftext|>" = 517 /\
  GetEncoding example_tokenizer "<|endoftext|>" = 516.
Proof. vm_compute. done. Qed.

Example example_Tokenize_uncapped :
  example_Tokenize 100 "abcd xyz" = [517; 512; 513; 87; 88; 345; 516].
Proof. vm_compute. reflexivity. Qed.

Example example_Tokenize_capped :
  example_Tokenize 3 "abcd xyz" = [517; 512; 513; 516].
Proof. vm_compute. reflexivity. Qed.

Example example_Tokenize_space :
  example_Tokenize 100 " " = [517; 516].
Proof. vm_compute. reflexivity. Qed.

(** A pre-token has at least one byte: [utf8_token.at(0)] does not throw. *)
Lemma string_of_ustring_nonempty u : u <> [] -> string_of_ustring u <> ""%string.
Proof.
  destruct u as [|chr u]; [done|]. intros _. simpl. unfold EncodeUTF8Char.
  repeat case_match; done.
Qed.

Section TokenizeFacts.
Variable category : Z -> Z.
Variables cat_L cat_N cat_Z : Z.
Variable ToLower : Z -> Z.
Variable v : VocabData.

(** *** The pre-tokenizer consumes its text *)

Lemma TryMatch_cut m_text :
  exists i, TryMatch category cat_L cat_N cat_Z m_text = cut m_text i.
Proof.
  unfold TryMatch, match_contraction.
  repeat case_match; simplify_eq; try (by eexists); by exists 0%nat.
Qed.

Lemma GetNextToken_Some m_text tok m_text' :
  GetNextToken category cat_L cat_N cat_Z m_text = (Some tok, m_text') ->
  tok <> [] /\ (length tok + length m_text' <= length m_text)%nat.
Proof.
  induction m_text as [|c m_text IH]; [done|].
  cbn [GetNextToken].
  destruct (TryMatch_cut (c :: m_text)) as [i ->]. unfold cut.
  destruct (take i (c :: m_text)) as [|t tok'] eqn:Htake.
  - intros H. destruct (IH H) as [? ?]. split; [done|]. simpl. lia.
  - intros [= <- <-]. split; [done|]. rewrite <- Htake.
    rewrite length_take, length_drop. lia.
Qed.

Lemma text_ids_fuel fuel1 fuel2 m_text :
  (length m_text < fuel1)%nat -> (length m_text < fuel2)%nat ->
  text_ids category cat_L cat_N cat_Z v fuel1 m_text
  = text_ids category cat_L cat_N cat_Z v fuel2 m_text.
Proof.
  revert fuel2 m_text. induction fuel1 as [|fuel1 IH]; intros fuel2 m_text H1 H2; [lia|].
  destruct fuel2 as [|fuel2]; [lia|]. simpl.
  destruct (GetNextToken category cat_L cat_N cat_Z m_text) as [[tok|] m_text'] eqn:Hnext; [|done].
  apply GetNextToken_Some in Hnext as [Htok Hlen].
  assert (0 < length tok)%nat by (destruct tok; [done|simpl; lia]).
  f_equal. apply IH; lia.
Qed.

Section Capped.
Variable max_length : Z.
Variable compute_offset_mapping : bool.

Lemma capped_nil r : capped max_length r [] = r.
Proof. unfold capped. by rewrite take_nil, app_nil_r. Qed.

Lemma capped_full r xs : max_length <= Z.of_nat (length r) -> capped max_length r xs = r.
Proof.
  intros H. unfold capped.
  replace (Z.to_nat max_length - length r)%nat with 0%nat by lia.
  by rewrite take_0, app_nil_r.
Qed.

Lemma capped_cons r x xs :
  Z.of_nat (length r) < max_length -> capped max_length r (x :: xs) = capped max_length (r ++ [x]) xs.
Proof.
  intros H. unfold capped. rewrite length_app. simpl.
  replace (Z.to_nat max_length - length r)%nat
    with (S (Z.to_nat max_length - (length r + 1)))%nat by lia.
  simpl. by rewrite <- app_assoc.
Qed.

Lemma capped_app r xs ys : capped max_length (capped max_length r xs) ys = capped max_length r (xs ++ ys).
Proof.
  unfold capped. rewrite <- app_assoc. f_equal.
  rewrite take_app. f_equal.
  rewrite length_app, length_take.
  destruct (decide (length xs <= Z.to_nat max_length - length r)%nat).
  - f_equal. lia.
  - replace (Z.to_nat max_length - length r - length xs)%nat with 0%nat by lia.
    f_equal. lia.
Qed.

Lemma capped_length r xs :
  Z.of_nat (length r) <= max_length -> Z.of_nat (length (capped max_length r xs)) <= max_length.
Proof. intros H. unfold capped. rewrite length_app, length_take. lia. Qed.

(** *** What the loops append *)

Lemma emit_res byte_list : forall s,
  res (emit max_length compute_offset_mapping byte_list s) = capped max_length (res s) byte_list.*1.
Proof.
  induction byte_list as [|p byte_list IH]; intros s; simpl.
  { by rewrite capped_nil. }
  destruct (Z.of_nat (length (res s)) >=? max_length) eqn:E.
  - rewrite capped_full; [done|lia].
  - rewrite IH. cbn [res]. rewrite capped_cons; [done|lia].
Qed.

Lemma tokenize_token_res tok s :
  res (tokenize_token v max_length compute_offset_mapping tok s)
  = capped max_length (res s) (token_ids v tok).
Proof.
  unfold tokenize_token, token_ids. rewrite emit_res.
  by destruct (compute_offset_mapping && leading_space (string_of_ustring tok)).
Qed.

Lemma tokens_loop_res fuel : forall m_text s,
  res (tokens_loop category cat_L cat_N cat_Z v max_length compute_offset_mapping
         fuel m_text s)
  = capped max_length (res s) (text_ids category cat_L cat_N cat_Z v fuel m_text).
Proof.
  induction fuel as [|fuel IH]; intros m_text s; simpl.
  { by rewrite capped_nil. }
  destruct (Z.of_nat (length (res s)) <? max_length) eqn:E.
  - destruct (GetNextToken category cat_L cat_N cat_Z m_text) as [[tok|] m_text'].
    + by rewrite IH, tokenize_token_res, capped_app.
    + by rewrite capped_nil.
  - rewrite capped_full; [done|lia].
Qed.

Lemma segments_loop_res segs : forall r offset_map,
  (segments_loop category cat_L cat_N cat_Z v max_length compute_offset_mapping
     segs r offset_map).1
  = capped max_length r (concat (segment_ids category cat_L cat_N cat_Z v <$> segs)).
Proof.
  induction segs as [|seg_id segs IH]; intros r offset_map.
  { simpl. by rewrite capped_nil. }
  cbn [segments_loop]. rewrite fmap_cons, concat_cons.
  destruct (Z.of_nat (length r) >=? max_length) eqn:E.
  { rewrite capped_full; [done|lia]. }
  unfold segment_ids at 1.
  destruct (negb (seg_id.2 =? -1)).
  - rewrite IH. cbn [app]. rewrite capped_cons; [done|lia].
  - rewrite IH, tokens_loop_res. cbn [res]. by rewrite capped_app.
Qed.

(** On an input that is not taken as empty, the result is the start token
    and the ids of the input, cut at [max_length], then the end token. *)
Lemma Tokenize_res input offset_map :
  IsEmptyUString (WhiteSpaceClean input) = false ->
  (Tokenize category cat_L cat_N cat_Z ToLower v max_length compute_offset_mapping
     input offset_map).1
  = capped max_length [GetEncoding v "<|startoftext|>"]
      (all_ids category cat_L cat_N cat_Z ToLower v input)
    ++ [GetEncoding v "<|endoftext|>"].
Proof.
  intros Hne. unfold Tokenize. rewrite Hne.
  pose proof (segments_loop_res
    (SplitBySpecialTokens (special_tokens_ v) (ToLower <$> WhiteSpaceClean input))
    [GetEncoding v "<|startoftext|>"] offset_map) as H.
  destruct (segments_loop _ _ _ _ _ _ _ _ _ _) as [r om]. simpl in *. by rewrite H.
Qed.

End Capped.
End TokenizeFacts.

Lemma capped_start max_length x xs :
  1 <= max_length -> capped max_length [x] xs = take (Z.to_nat max_length) (x :: xs).
Proof.
  intros H. unfold capped. simpl.
  replace (Z.to_nat max_length) with (S (Z.to_nat max_length - 1)) at 2 by lia.
  done.
Qed.

Lemma IsEmptyUString_true str :
  IsEmptyUString str = true <->
  Forall (fun ch => IsUnicodeSpace ch = true) str /\ str <> U " ".
Proof.
  unfold IsEmptyUString. destruct (decide (str = U " ")) as [->|Hne].
  - split; [done|]. by intros [_ ?].
  - rewrite forallb_forall, Forall_forall. split.
    + intros H. split; [|done]. intros x Hx. apply H. by apply list_elem_of_In.
    + intros [H _] x Hx. apply H. by apply list_elem_of_In.
Qed.

(** C4, as the code has it: on an input that is not taken as empty the end
    token is the last element of the result of [Tokenize]; with a cap of at
    least one the result is the start token and the ids of the input cut at
    [max_length], followed by the end token, so its length is at most
    [max_length + 1], and is [max_length + 1] when the cut took place.  The result under a cap is the result under a
    larger cap cut to the smaller one; with ids [t1 ... t5] and the cap 3 it
    is the start token, [t1], [t2] and the end token. *)
Theorem eos_appended_after_truncation
    category cat_L cat_N cat_Z ToLower v compute_offset_mapping input :
  let BOS := GetEncoding v "<|startoftext|>" in
  let EOS := GetEncoding v "<|endoftext|>" in
  let ids := all_ids category cat_L cat_N cat_Z ToLower v input in
  let run max_length offset_map :=
    (Tokenize category cat_L cat_N cat_Z ToLower v max_length compute_offset_mapping
       input offset_map).1 in
  IsEmptyUString (WhiteSpaceClean input) = false ->
  (forall max_length offset_map, last (run max_length offset_map) = Some EOS) /\
  (forall max_length offset_map, 1 <= max_length ->
     run max_length offset_map = take (Z.to_nat max_length) (BOS :: ids) ++ [EOS] /\
     Z.of_nat (length (run max_length offset_map)) <= max_length + 1 /\
     (max_length <= Z.of_nat (length (BOS :: ids)) ->
      Z.of_nat (length (run max_length offset_map)) = max_length + 1)) /\
  (forall M m om om' body, 1 <= m <= M ->
     run M om = body ++ [EOS] ->
     run m om' = take (Z.to_nat m) body ++ [EOS]) /\
  (forall M om om' t1 t2 t3 t4 t5, 3 <= M ->
     run M om = [BOS; t1; t2; t3; t4; t5; EOS] ->
     run 3 om' = [BOS; t1; t2; EOS]).
Proof.
  intros BOS EOS ids run Hne.
  assert (forall max_length offset_map, 1 <= max_length ->
            run max_length offset_map = take (Z.to_nat max_length) (BOS :: ids) ++ [EOS])
    as Hrun.
  { intros max_length offset_map Hm. unfold run.
    rewrite Tokenize_res by done. by rewrite capped_start. }
  assert (forall M m om om' body, 1 <= m <= M ->
            run M om = body ++ [EOS] ->
            run m om' = take (Z.to_nat m) body ++ [EOS]) as Hcut.
  { intros M m om om' body Hm HM. rewrite Hrun in HM by lia.
    apply app_inj_tail in HM as [<- _]. rewrite Hrun by lia.
    rewrite take_take. do 2 f_equal. lia. }
  split; [|split; [|split]].
  - intros max_length offset_map. unfold run.
    rewrite Tokenize_res by done. by rewrite last_snoc.
  - intros max_length offset_map Hm. rewrite Hrun by done.
    split; [done|].
    rewrite length_app, length_take. simpl. split; [lia|]. intros Hlen. lia.
  - exact Hcut.
  - intros M om om' t1 t2 t3 t4 t5 HM Hfull.
    apply (Hcut M 3 om om' [BOS; t1; t2; t3; t4; t5]); [lia|done].
Qed.

(** The cap that [Compute] passes is at least one. *)
Lemma Compute_max_length_positive padding_length_ :
  check_padding_length padding_length_ = Ok padding_length_ ->
  1 <= Compute_max_length padding_length_.
Proof.
  unfold check_padding_length, Compute_max_length, INT64_MAX.
  destruct (padding_length_ =? -1) eqn:E1; simpl.
  - apply Z.eqb_eq in E1 as ->. done.
  - destruct (padding_length_ <=? 0) eqn:E2; [done|]. intros _.
    apply Z.leb_gt in E2. destruct (padding_length_ <? 0); lia.
Qed.

(** C4, as the claim has it, fails: for an input that is taken as empty, here
    the empty string and a tab, the result is empty and has no end token. *)
Lemma eos_last_for_every_input_counterexample :
  last (example_Tokenize 3 "") <> Some (GetEncoding example_tokenizer "<|endoftext|>") /\
  last (example_Tokenize 3 (String "009"%char ""))
  <> Some (GetEncoding example_tokenizer "<|endoftext|>").
Proof. vm_compute. split; discriminate. Qed.

Lemma eos_appended_after_truncation_witness :
  example_Tokenize 3 "abcd xyz" = [517; 512; 513; 516].
Proof.
  apply (proj2 (proj2 (proj2 (eos_appended_after_truncation ascii_category 1 2 4
                                ascii_tolower example_tokenizer false (U "abcd xyz")
                                eq_refl)))
           100 [] [] 512 513 87 88 345).
  - lia.
  - vm_compute. reflexivity.
Defined.

(** C6: an input whose cleaned form consists of whitespace only and is not
    the one-space string yields no token at all and leaves the offsets as
    they are; every other input yields a start and an end token, and the input
    of exactly one space is such an input. *)
Theorem whitespace_only_input_yields_no_token
    category cat_L cat_N cat_Z ToLower v max_length compute_offset_mapping :
  let run := Tokenize category cat_L cat_N cat_Z ToLower v max_length
               compute_offset_mapping in
  (forall input offset_map,
     Forall (fun ch => IsUnicodeSpace ch = true) (WhiteSpaceClean input) ->
     WhiteSpaceClean input <> U " " ->
     run input offset_map = ([], offset_map)) /\
  (forall input offset_map,
     ~ (Forall (fun ch => IsUnicodeSpace ch = true) (WhiteSpaceClean input) /\
        WhiteSpaceClean input <> U " ") ->
     exists body,
       (run input offset_map).1
       = GetEncoding v "<|startoftext|>" :: body ++ [GetEncoding v "<|endoftext|>"]) /\
  (forall offset_map,
     WhiteSpaceClean (U " ") = U " " /\
     IsEmptyUString (WhiteSpaceClean (U " ")) = false /\
     exists body,
       (run (U " ") offset_map).1
       = GetEncoding v "<|startoftext|>" :: body ++ [GetEncoding v "<|endoftext|>"]).
Proof.
  intros run.
  assert (forall input offset_map,
            IsEmptyUString (WhiteSpaceClean input) = false ->
            exists body,
              (run input offset_map).1
              = GetEncoding v "<|startoftext|>" :: body ++ [GetEncoding v "<|endoftext|>"])
    as Hfull.
  { intros input offset_map Hne. unfold run. rewrite Tokenize_res by done.
    unfold capped. simpl. by eexists. }
  split; [|split].
  - intros input offset_map Hall Hne. unfold run, Tokenize.
    by rewrite (proj2 (IsEmptyUString_true _) (conj Hall Hne)).
  - intros input offset_map Hnot. apply Hfull.
    destruct (IsEmptyUString (WhiteSpaceClean input)) eqn:E; [|done].
    by apply IsEmptyUString_true in E.
  - intros offset_map. split; [done|]. split; [done|]. by apply Hfull.
Qed.

Lemma whitespace_only_input_yields_no_token_witness :
  Tokenize ascii_category 1 2 4 ascii_tolower example_tokenizer 100 true
    [9; 10; 10; 32] [] = ([], []).
Proof.
  apply (proj1 (whitespace_only_input_yields_no_token ascii_category 1 2 4 ascii_tolower
                  example_tokenizer 100 true)).
  - vm_compute. repeat constructor.
  - vm_compute. discriminate.
Defined.

(** Cleaning collapses a run of equal whitespace: two newlines become one
    space, which is not taken as empty. *)
Example example_Tokenize_newlines :
  WhiteSpaceClean [10; 10] = U " " /\
  example_Tokenize 100 (String "010"%char (String "010"%char "")) = [517; 516].
Proof. vm_compute. done. Qed.

(** * Further properties *)

(** ** Whitespace cleaning *)

Lemma unique_after_no_adjacent {A} (pred : A -> A -> bool) (l : list A) : forall last,
  no_adjacent pred (last :: unique_after pred last l).
Proof.
  induction l as [|x l IH]; intros last; [done|].
  cbn [unique_after]. destruct (pred last x) eqn:E; [apply IH|].
  split; [done|apply IH].
Qed.

Lemma unique_after_fixed {A} (pred : A -> A -> bool) (l : list A) : forall last,
  no_adjacent pred (last :: l) -> unique_after pred last l = l.
Proof.
  induction l as [|x l IH]; intros last; [done|].
  intros [Hx Hl]. cbn [unique_after]. rewrite Hx. f_equal. by apply IH.
Qed.

Lemma unique_after_subset {A} (pred : A -> A -> bool) (l : list A) : forall last x,
  x ∈ unique_after pred last l -> x ∈ l.
Proof.
  induction l as [|y l IH]; intros last x; [done|].
  cbn [unique_after]. destruct (pred last y).
  - intros H. right. by eapply IH.
  - intros [->|H]%elem_of_cons; [left|right; by eapply IH].
Qed.

Lemma unique_after_filter (l : list Z) : forall last,
  filter (fun c => IsUnicodeSpace c = false) (unique_after BothSpaces last l)
  = filter (fun c => IsUnicodeSpace c = false) l.
Proof.
  induction l as [|x l IH]; intros last; [done|].
  cbn [unique_after]. destruct (BothSpaces last x) eqn:E.
  - rewrite IH. unfold BothSpaces in E. apply andb_prop in E as [E1 E2].
    apply Z.eqb_eq in E1 as ->.
    rewrite (filter_cons_False _ x); [done|]. by rewrite E2.
  - rewrite !filter_cons, IH. done.
Qed.

(** X1: the cleaned text holds no newline and no whitespace character next
    to an equal one; cleaning keeps the characters that are not whitespace,
    in their order, and cleaning a cleaned text changes nothing. *)
Theorem WhiteSpaceClean_normal_form str :
  (10 ∉ WhiteSpaceClean str) /\
  no_adjacent BothSpaces (WhiteSpaceClean str) /\
  filter (fun c => IsUnicodeSpace c = false) (WhiteSpaceClean str)
  = filter (fun c => IsUnicodeSpace c = false) str /\
  WhiteSpaceClean (WhiteSpaceClean str) = WhiteSpaceClean str.
Proof.
  rewrite !WhiteSpaceClean_spec.
  set (f := fun c : Z => if c =? 10 then 32 else c).
  assert (forall l : list Z, 10 ∉ f <$> l) as Hf.
  { intros l (c & Hc & _)%list_elem_of_fmap. unfold f in Hc.
    destruct (c =? 10) eqn:E; [done|]. apply Z.eqb_neq in E. done. }
  assert (forall l : list Z, 10 ∉ l -> f <$> l = l) as Hid.
  { induction l as [|c l IH]; [done|]. intros Hc.
    apply not_elem_of_cons in Hc as [Hc Hl]. rewrite fmap_cons, IH by done.
    unfold f. destruct (c =? 10) eqn:E; [|done]. apply Z.eqb_eq in E. done. }
  assert (10 ∉ unique BothSpaces (f <$> str)) as H10.
  { intros H. apply (Hf str). destruct (f <$> str) as [|x l]; [done|].
    apply elem_of_cons in H as [->|H]; [left|right; by eapply unique_after_subset]. }
  assert (no_adjacent BothSpaces (unique BothSpaces (f <$> str))) as Hadj.
  { destruct (f <$> str) as [|x l]; [done|]. apply unique_after_no_adjacent. }
  split; [done|]. split; [done|]. split.
  - assert (forall l : list Z,
              filter (fun c => IsUnicodeSpace c = false) (f <$> l)
              = filter (fun c => IsUnicodeSpace c = false) l) as Hff.
    { induction l as [|c l IH]; [done|]. rewrite fmap_cons.
      unfold f at 1. destruct (c =? 10) eqn:E.
      - apply Z.eqb_eq in E as ->.
        rewrite (filter_cons_False _ 32), (filter_cons_False _ 10); done.
      - cbn iota. rewrite !filter_cons, IH. done. }
    rewrite <- (Hff str). destruct (f <$> str) as [|x l]; [done|].
    cbn [unique]. rewrite !filter_cons, unique_after_filter. done.
  - rewrite Hid by done.
    destruct (unique BothSpaces (f <$> str)) as [|x l] eqn:E; [done|].
    cbn [unique]. f_equal. by apply unique_after_fixed.
Qed.

(** ** The registry of special tokens *)

Lemma SpecialTokenMap_wf_absent m p_str :
  SpecialTokenMap_wf m -> token_map_ m !! p_str = None ->
  p_str ∉ st_str <$> token_list_ m.
Proof.
  intros (_ & _ & Hmap) Hnone (st & -> & Hst)%list_elem_of_fmap.
  destruct st as [s i]. apply Hmap in Hst. simpl in Hnone. congruence.
Qed.

Lemma Add_new_wf m p_str p_id :
  SpecialTokenMap_wf m -> token_map_ m !! p_str = None -> p_str <> [] ->
  SpecialTokenMap_wf
    {| token_list_ := token_list_ m ++ [mkSpecialTokenInfo p_str p_id];
       token_map_ := <[p_str := p_id]> (token_map_ m) |}.
Proof.
  intros Hwf Hlook Hne.
  pose proof (SpecialTokenMap_wf_absent _ _ Hwf Hlook) as Habs.
  destruct Hwf as (Hstr & Hnd & Hmap). split; [|split]; simpl.
  - apply Forall_app. split; [done|]. by apply Forall_singleton.
  - rewrite fmap_app. apply NoDup_app. split; [done|]. split.
    + intros s Hs ->%list_elem_of_singleton. done.
    + apply NoDup_singleton.
  - intros s i. rewrite elem_of_app, list_elem_of_singleton, <- Hmap.
    destruct (decide (p_str = s)) as [->|Hs].
    + rewrite lookup_insert_eq. split.
      * intros [= ->]. by right.
      * intros [H|[= ->]]; [congruence|done].
    + rewrite lookup_insert_ne by done. split; [by left|].
      intros [H|[= -> ->]]; done.
Qed.

(** What a successful [Add] leaves. *)
Lemma Add_Ok_wf m p_str p_id m' :
  Add m p_str p_id = Ok m' -> SpecialTokenMap_wf m ->
  SpecialTokenMap_wf m' /\
  (forall st, st ∈ token_list_ m -> st ∈ token_list_ m') /\
  mkSpecialTokenInfo p_str p_id ∈ token_list_ m'.
Proof.
  unfold Add. intros Hadd Hwf.
  destruct (token_map_ m !! p_str) as [id|] eqn:Hlook.
  - destruct (id =? p_id) eqn:E; [|done]. injection Hadd as <-.
    apply Z.eqb_eq in E as ->. split; [done|]. split; [done|].
    by apply (proj1 (proj2 (proj2 Hwf) _ _)).
  - destruct (decide (p_str = [])) as [->|Hne]; [done|]. injection Hadd as <-.
    split; [by apply Add_new_wf|]. simpl. split.
    + intros st Hst. apply elem_of_app. by left.
    + apply elem_of_app. right. by apply list_elem_of_singleton.
Qed.

(** X2: a call of [Add] that returns keeps the registry consistent: the
    registered strings are not empty and pairwise distinct, and the map holds
    exactly the entries of the list.  A new string that is not empty is
    appended to the list and entered in the map; a string registered under
    the same id changes nothing; one registered under another id is refused
    and leaves the registry as it was.  The empty string is refused too, but
    only after it was entered in the map: the registry left by that call
    holds it in [token_map_] and not in [token_list_], and is no longer
    consistent. *)
Theorem Add_registry_consistency :
  SpecialTokenMap_wf SpecialTokenMap_empty /\
  forall m p_str p_id, SpecialTokenMap_wf m ->
    match token_map_ m !! p_str with
    | Some id =>
        Add_registry m p_str p_id = m /\
        if decide (id = p_id) then Add m p_str p_id = Ok m
        else Add m p_str p_id = Err "Duplicate special tokens."
    | None =>
        if decide (p_str = []) then
          Add m p_str p_id = Err "Empty special token." /\
          token_list_ (Add_registry m p_str p_id) = token_list_ m /\
          token_map_ (Add_registry m p_str p_id) = <[[] := p_id]> (token_map_ m) /\
          ~ SpecialTokenMap_wf (Add_registry m p_str p_id)
        else
          Add m p_str p_id = Ok (Add_registry m p_str p_id) /\
          SpecialTokenMap_wf (Add_registry m p_str p_id) /\
          token_list_ (Add_registry m p_str p_id)
          = token_list_ m ++ [mkSpecialTokenInfo p_str p_id] /\
          token_map_ (Add_registry m p_str p_id) = <[p_str := p_id]> (token_map_ m)
    end.
Proof.
  split.
  { split; [by apply Forall_nil|]. split; [apply NoDup_nil_2|].
    intros s i. simpl. rewrite lookup_empty. split; [done|by intros ?%elem_of_nil]. }
  intros m p_str p_id Hwf. unfold Add, Add_registry.
  destruct (token_map_ m !! p_str) as [id|] eqn:Hlook.
  - split; [done|]. destruct (decide (id = p_id)) as [->|Hne].
    + by rewrite Z.eqb_refl.
    + apply Z.eqb_neq in Hne. by rewrite Hne.
  - destruct (decide (p_str = [])) as [->|Hne]; cbn [token_list_ token_map_].
    + split; [done|]. split; [done|]. split; [done|].
      intros (_ & _ & Hmap). cbn [token_list_ token_map_] in Hmap.
      destruct Hwf as (_ & _ & Hmap').
      assert (token_map_ m !! [] = Some p_id) as Hin; [|congruence].
      apply Hmap', Hmap, lookup_insert_eq.
    + split; [done|]. split; [by apply Add_new_wf|]. done.
Qed.

Lemma Add_registry_consistency_witness :
  Add SpecialTokenMap_empty [] 7 = Err "Empty special token." /\
  token_list_ (Add_registry SpecialTokenMap_empty [] 7) = [] /\
  token_map_ (Add_registry SpecialTokenMap_empty [] 7) = <[[] := 7]> ∅ /\
  ~ SpecialTokenMap_wf (Add_registry SpecialTokenMap_empty [] 7).
Proof.
  exact (proj2 Add_registry_consistency SpecialTokenMap_empty [] 7
           (proj1 Add_registry_consistency)).
Defined.

(** ** The special-token splitter *)

Lemma split_segment_nonempty fuel rest st seg :
  st_str st <> [] -> seg ∈ split_segment fuel rest st -> seg.1 <> [].
Proof.
  intros Hpat. revert rest. induction fuel as [|fuel IH]; intros rest; simpl.
  { by intros ?%elem_of_nil. }
  destruct rest as [|c rest]; [by intros ?%elem_of_nil|].
  destruct (search (c :: rest) (st_str st)) as [n|] eqn:Hn.
  - intros [Hin|Hin]%elem_of_app.
    + destruct n as [|n]; simpl in Hin; [by apply elem_of_nil in Hin|].
      by apply list_elem_of_singleton in Hin as ->.
    + apply elem_of_cons in Hin as [->|Hin]; [|by apply IH in Hin].
      simpl. apply search_Some in Hn as [Hn _].
      by rewrite (starts_with_take _ _ Hn).
  - by intros ->%list_elem_of_singleton.
Qed.

Lemma split_passes_concat toks : forall res,
  Forall (fun st => st_str st <> []) toks ->
  concat (foldl (fun res st => split_by_token st res) res toks).*1 = concat res.*1.
Proof.
  induction toks as [|st toks IH]; intros res Hne; [done|].
  apply Forall_cons in Hne as [Hst Hne]. simpl.
  rewrite IH by done. by apply split_by_token_concat.
Qed.

Lemma split_passes_invariant (P : list Z * Z -> Prop) toks : forall res,
  Forall (fun st => st_str st <> [] /\
                    forall res' seg, (forall s, s ∈ res' -> P s) ->
                                     seg ∈ split_by_token st res' -> P seg) toks ->
  (forall s, s ∈ res -> P s) ->
  forall seg, seg ∈ foldl (fun res st => split_by_token st res) res toks -> P seg.
Proof.
  induction toks as [|st toks IH]; intros res Htoks Hres; [done|].
  apply Forall_cons in Htoks as [[Hst Hstep] Htoks]. simpl.
  apply IH; [done|]. intros s. by apply Hstep.
Qed.

(** X3: when no registered token is empty, the segments of
    [SplitBySpecialTokens] put together give the input back; a segment is
    untagged or is a registered token with its id; no segment of a non-empty
    input is empty; and the empty input has no segment at all once a token is
    registered. *)
Theorem SplitBySpecialTokens_segments m input :
  Forall (fun st => st_str st <> []) (token_list_ m) ->
  concat (SplitBySpecialTokens m input).*1 = input /\
  (forall seg, seg ∈ SplitBySpecialTokens m input ->
     seg.2 = -1 \/ exists st, st ∈ token_list_ m /\ seg = (st_str st, st_id st)) /\
  (input <> [] -> forall seg, seg ∈ SplitBySpecialTokens m input -> seg.1 <> []) /\
  (input = [] -> token_list_ m <> [] -> SplitBySpecialTokens m input = []).
Proof.
  intros Hne. unfold SplitBySpecialTokens. split; [|split; [|split]].
  - rewrite split_passes_concat by done. simpl. by rewrite app_nil_r.
  - apply (split_passes_invariant
             (fun seg => seg.2 = -1 \/
                         exists st, st ∈ token_list_ m /\ seg = (st_str st, st_id st))).
    + apply Forall_forall. intros st Hst. split.
      { by apply (proj1 (Forall_forall _ _) Hne). }
      intros res' seg Hres' Hseg.
      apply split_by_token_pieces in Hseg as [[Hin _] | [[Htag _] | ->]].
      * by apply Hres'.
      * by left.
      * right. by exists st.
      * by apply (proj1 (Forall_forall _ _) Hne).
    + intros s ->%list_elem_of_singleton. by left.
  - intros Hinput.
    apply (split_passes_invariant (fun seg => seg.1 <> [])).
    + apply Forall_forall. intros st Hst.
      assert (st_str st <> []) as Hpat by (by apply (proj1 (Forall_forall _ _) Hne)).
      split; [done|]. intros res' seg Hres'.
      unfold split_by_token. intros (str & Hin & Hstr)%list_elem_of_bind.
      destruct (negb (str.2 =? -1)).
      * apply list_elem_of_singleton in Hin as ->. by apply Hres'.
      * by eapply split_segment_nonempty.
    + by intros s ->%list_elem_of_singleton.
  - intros -> Htoks. destruct (token_list_ m) as [|st toks]; [done|]. simpl.
    clear. induction toks as [|st' toks IH]; [done|]. simpl. exact IH.
Qed.

Lemma SplitBySpecialTokens_segments_witness :
  concat (SplitBySpecialTokens
            (mkSpecialTokenMap [mkSpecialTokenInfo (U "<s>") 7;
                                mkSpecialTokenInfo (U "b") 8] ∅)
            (U "ab<s><s>cb<s")).*1
  = U "ab<s><s>cb<s".
Proof.
  apply (proj1 (SplitBySpecialTokens_segments
                  (mkSpecialTokenMap [mkSpecialTokenInfo (U "<s>") 7;
                                      mkSpecialTokenInfo (U "b") 8] ∅)
                  (U "ab<s><s>cb<s")
                  ltac:(repeat constructor; discriminate))).
Defined.

(** ** The pre-tokenizer *)

Section PreTokenFacts.
Variable category : Z -> Z.
Variables cat_L cat_N cat_Z : Z.

(** On a text that is not empty [TryMatch] always matches: a character that
    is no letter, no number and not [NotLNZ] is a separator. *)
Lemma TryMatch_matches m_text :
  m_text <> [] ->
  exists i, (1 <= i)%nat /\ TryMatch category cat_L cat_N cat_Z m_text = cut m_text i.
Proof.
  intros Hne. destruct m_text as [|c0 text]; [done|].
  unfold TryMatch, match_contraction.
  repeat case_match; simplify_eq;
    try (eexists; split; [|reflexivity]; unfold run_end; lia).
  all: first
    [ match goal with
      | H : (1 <? ?i)%nat && _ = true |- _ =>
          apply andb_prop in H as [H _]; apply Nat.ltb_lt in H
      end;
      eexists; split; [|reflexivity]; lia
    | exfalso; unfold at_ in *; simpl in *; unfold NotLNZ in *;
      repeat match goal with
      | H : (if ?b then _ else _) = false |- _ => destruct b eqn:?; try done
      end ].
Qed.

Lemma GetNextToken_cut m_text :
  m_text <> [] ->
  exists i, (1 <= i)%nat /\
    GetNextToken category cat_L cat_N cat_Z m_text = (Some (take i m_text), drop i m_text).
Proof.
  intros Hne. destruct (TryMatch_matches m_text Hne) as (i & Hi & Hcut).
  destruct m_text as [|c0 text]; [done|].
  cbn [GetNextToken]. rewrite Hcut. unfold cut.
  destruct i as [|i]; [lia|]. exists (S i). split; [done|]. by rewrite firstn_cons.
Qed.

(** X4: the pre-tokenizer drops nothing: the tokens it returns for a text are
    not empty and, put together, are the text; it returns none only for the
    empty text. *)
Theorem pre_tokens_cover_text m_text :
  concat (pre_tokens category cat_L cat_N cat_Z (S (length m_text)) m_text) = m_text /\
  Forall (fun tok => tok <> [])
    (pre_tokens category cat_L cat_N cat_Z (S (length m_text)) m_text) /\
  (pre_tokens category cat_L cat_N cat_Z (S (length m_text)) m_text = [] <-> m_text = []).
Proof.
  assert (forall fuel text, (length text < fuel)%nat ->
            concat (pre_tokens category cat_L cat_N cat_Z fuel text) = text /\
            Forall (fun tok => tok <> [])
              (pre_tokens category cat_L cat_N cat_Z fuel text)) as Hloop.
  { induction fuel as [|fuel IH]; intros text Hlen; [lia|].
    cbn [pre_tokens]. destruct text as [|c text]; [done|].
    destruct (GetNextToken_cut (c :: text)) as (i & Hi & ->); [done|].
    destruct (IH (drop i (c :: text))) as [IH1 IH2].
    { rewrite length_drop. simpl in *. lia. }
    split.
    - rewrite concat_cons, IH1. apply take_drop.
    - apply Forall_cons. split; [|done]. destruct i; [lia|done]. }
  destruct (Hloop (S (length m_text)) m_text) as [H1 H2]; [lia|].
  split; [done|]. split; [done|]. split.
  - intros Hnil. rewrite Hnil in H1. done.
  - by intros ->.
Qed.

Lemma run_length_spec pred l :
  Forall (fun c => pred c = true) (take (run_length pred l) l) /\
  run_ends pred (drop (run_length pred l) l).
Proof.
  induction l as [|c l [IH1 IH2]]; [done|]. simpl.
  destruct (pred c) eqn:E; simpl; [|done]. split; [by apply Forall_cons|done].
Qed.

Lemma cut_run_1 pred c0 text :
  pred c0 = true ->
  token_run pred (cut (c0 :: text) (run_end pred 1 (c0 :: text))).1 /\
  run_ends pred (cut (c0 :: text) (run_end pred 1 (c0 :: text))).2.
Proof.
  intros Hc. unfold run_end, cut. simpl.
  destruct (run_length_spec pred text) as [H1 H2].
  split; [|done]. split; [done|]. left. by apply Forall_cons.
Qed.

Lemma cut_run_2 pred c1 text :
  pred c1 = true ->
  token_run pred (cut (cp " " :: c1 :: text) (run_end pred 2 (cp " " :: c1 :: text))).1 /\
  run_ends pred (cut (cp " " :: c1 :: text) (run_end pred 2 (cp " " :: c1 :: text))).2.
Proof.
  intros Hc. unfold run_end, cut. simpl.
  destruct (run_length_spec pred text) as [H1 H2].
  split; [|done]. split; [done|]. right. eexists. split; [done|].
  split; [done|]. by apply Forall_cons.
Qed.

(** X15: a match of [TryMatch] is a contraction, or letters, numbers or
    other characters after at most one leading space, taken as far as the
    class goes, or separators only. *)
Theorem TryMatch_token_classes m_text tok rest :
  m_text <> [] ->
  TryMatch category cat_L cat_N cat_Z m_text = (tok, rest) ->
  m_text = tok ++ rest /\
  (match_contraction m_text = Some (tok, rest) \/
   (token_run (IsL category cat_L) tok /\ run_ends (IsL category cat_L) rest) \/
   (token_run (IsN category cat_N) tok /\ run_ends (IsN category cat_N) rest) \/
   (token_run (NotLNZ category cat_L cat_N cat_Z) tok /\
    run_ends (NotLNZ category cat_L cat_N cat_Z) rest) \/
   (tok <> [] /\ Forall (fun c => IsZ category cat_Z c = true) tok)).
Proof.
  intros Hne Hmatch. split.
  { destruct (TryMatch_matches m_text Hne) as (i & _ & Hcut).
    rewrite Hcut in Hmatch. injection Hmatch as <- <-. by rewrite take_drop. }
  unfold TryMatch in Hmatch.
  destruct (match_contraction m_text) as [r|] eqn:Hcon; [left; by subst r|].
  right. destruct m_text as [|c0 text]; [done|].
  assert (forall pred, (at_ (c0 :: text) 0 =? cp " ") && (1 <? length (c0 :: text))%nat
                       && pred (at_ (c0 :: text) 1) = true ->
                       exists c1 t, c0 = cp " " /\ text = c1 :: t /\ pred c1 = true) as Hsp.
  { intros pred H. apply andb_prop in H as [H H3]. apply andb_prop in H as [H1 H2].
    apply Z.eqb_eq in H1. destruct text as [|c1 t]; [done|]. by exists c1, t. }
  unfold at_ in Hmatch. cbn [nth] in Hmatch. fold (at_ (c0 :: text) 1) in Hmatch.
  fold (at_ (c0 :: text) 0) in Hsp.
  change (nth 0 (c0 :: text) 0) with c0 in *.
  repeat match type of Hmatch with
  | (if ?b then _ else _) = _ => destruct b eqn:?
  end; try (injection Hmatch as <- <-).
  all: try match goal with
  | H : (_ =? cp " ") && _ && ?pred _ = true |- _ =>
      apply (Hsp pred) in H as (c1 & t & -> & -> & Hc1)
  end.
  - left. by apply cut_run_2.
  - left. by apply cut_run_1.
  - right. left. by apply cut_run_2.
  - right. left. by apply cut_run_1.
  - do 2 right. left. by apply cut_run_2.
  - do 2 right. left. by apply cut_run_1.
  - do 3 right.
    match goal with
    | H : (1 <? ?i)%nat && _ = true |- _ =>
        apply andb_prop in H as [H _]; apply Nat.ltb_lt in H;
        unfold run_end in H; simpl in H; rename H into Hlt
    end.
    match goal with H : _ && IsZ _ _ c0 = true |- _ => apply andb_prop in H as [_ H] end.
    unfold run_end, cut in *. cbn [fst] in *.
    rewrite ?drop_0, ?Nat.sub_0_r in *.
    destruct (run_length_spec (IsZ category cat_Z) text) as [Hrun _].
    destruct (run_length (IsZ category cat_Z) text) as [|n] eqn:E; [lia|].
    rewrite firstn_cons.
    split; [done|]. apply Forall_cons. split; [done|].
    replace (take n text) with (take n (take (S n) text))
      by (rewrite take_take; f_equal; lia).
    by apply Forall_take.
  - do 3 right.
    match goal with H : _ && IsZ _ _ c0 = true |- _ => apply andb_prop in H as [_ H] end.
    unfold run_end, cut. cbn [fst]. rewrite ?drop_0.
    destruct (run_length_spec (IsZ category cat_Z) text) as [Hrun _].
    simpl. split; [done|]. by apply Forall_cons.
  - exfalso. destruct (TryMatch_matches (c0 :: text)) as (i & Hi & Hcut); [done|].
    unfold TryMatch in Hcut. rewrite Hcon in Hcut.
    unfold at_ in Hcut. cbn [nth] in Hcut. fold (at_ (c0 :: text) 1) in Hcut.
    repeat match goal with
    | H : ?b = false |- _ => rewrite H in Hcut
    end.
    unfold cut in Hcut. destruct i; [lia|]. done.
Qed.

End PreTokenFacts.

Lemma TryMatch_token_classes_witness :
  U " don't" = U " don" ++ U "'t" /\
  (match_contraction (U " don't") = Some (U " don", U "'t") \/
   (token_run (IsL ascii_category 1) (U " don") /\ run_ends (IsL ascii_category 1) (U "'t")) \/
   (token_run (IsN ascii_category 2) (U " don") /\ run_ends (IsN ascii_category 2) (U "'t")) \/
   (token_run (NotLNZ ascii_category 1 2 4) (U " don") /\
    run_ends (NotLNZ ascii_category 1 2 4) (U "'t")) \/
   (U " don" <> [] /\ Forall (fun c => IsZ ascii_category 4 c = true) (U " don"))).
Proof.
  apply (TryMatch_token_classes ascii_category 1 2 4 (U " don't") (U " don") (U "'t")).
  - discriminate.
  - reflexivity.
Defined.

(** ** The merge loop, continued *)

Section BpeMoreFacts.
Variable table : gmap (Z * Z) BpeNode.

Lemma fold_repeats_ids id1 id2 (aim : Z) l p :
  p ∈ fold_repeats id1 id2 aim l -> p.1 ∈ l.*1 \/ p.1 = aim.
Proof.
  revert p. induction l as [|a|a b t IH1 IH2] using pairs_ind; intros p.
  - by intros ?%elem_of_nil.
  - rewrite fold_repeats_single. intros ->%list_elem_of_singleton. left. simpl. left.
  - rewrite fold_repeats_cons2.
    assert (p ∈ a :: fold_repeats id1 id2 aim (b :: t) ->
            p.1 ∈ (a :: b :: t).*1 \/ p.1 = aim) as Hkeep.
    { intros [->|Hin]%elem_of_cons; [left; simpl; left|].
      destruct (IH1 _ Hin) as [H|H]; [left; by right|by right]. }
    destruct (negb (a.1 =? id1)); [done|].
    destruct (negb (b.1 =? id2)); [done|].
    intros [->|Hin]%elem_of_cons; [by right|].
    destruct (IH2 _ Hin) as [H|H]; [left; right; by right|by right].
Qed.

Lemma bpe_step_nonempty vals vals' :
  bpe_step table vals = Some vals' -> vals' <> [].
Proof.
  intros (p & x & y & node & _ & _ & _ & _ & ->)%bpe_step_Some.
  by destruct (take p vals).
Qed.

Lemma bpe_step_ids vals vals' q :
  bpe_step table vals = Some vals' -> q ∈ vals' -> id_from table vals q.
Proof.
  intros (p & x & y & node & Hp & HSp & [Hrank _] & _ & ->)%bpe_step_Some Hq.
  unfold pair_rank in Hrank. rewrite Hp in Hrank. simpl in Hrank.
  rewrite HSp in Hrank. simpl in Hrank.
  pose proof (split_at_pair _ _ _ _ Hp HSp) as Hv.
  apply elem_of_app in Hq as [Hq|Hq].
  - left. rewrite Hv, fmap_app. apply elem_of_app. left. by apply list_elem_of_fmap_2.
  - apply elem_of_cons in Hq as [->|Hq]; [right; by eexists _, _|].
    apply fold_repeats_ids in Hq as [Hq|Hq]; [|right; by eexists _, _].
    left. rewrite Hv, fmap_app, !fmap_cons. apply elem_of_app. right. by do 2 right.
Qed.

Lemma bpe_loop_facts fuel : forall vals,
  (length (bpe_loop table fuel vals) <= length vals)%nat /\
  (vals <> [] -> bpe_loop table fuel vals <> []) /\
  (forall q, q ∈ bpe_loop table fuel vals -> id_from table vals q).
Proof.
  induction fuel as [|fuel IH]; intros vals.
  { split; [done|]. split; [done|]. intros q Hq. left. by apply list_elem_of_fmap_2. }
  simpl. destruct (bpe_step table vals) as [vals'|] eqn:Hstep.
  - destruct (IH vals') as (IH1 & IH2 & IH3).
    split; [apply bpe_step_length in Hstep; lia|].
    split; [intros _; apply IH2; by eapply bpe_step_nonempty|].
    intros q Hq. destruct (IH3 _ Hq) as [Hin|Hrule]; [|by right].
    apply list_elem_of_fmap in Hin as (q' & Heq & Hq').
    destruct (bpe_step_ids _ _ _ Hstep Hq') as [H|H]; [left|right]; by rewrite Heq.
  - split; [done|]. split; [done|]. intros q Hq. left. by apply list_elem_of_fmap_2.
Qed.

(** X5: [bpe] returns a list that is no longer than its input and is empty
    only for the empty input; its ids are ids of the input or merged ids of
    rules of the table; and, the ranks of the table being below [INT_MAX],
    no two neighbours of the result form a rule of the table. *)
Theorem bpe_result_is_merged vals :
  (length (bpe table vals) <= length vals)%nat /\
  (bpe table vals = [] <-> vals = []) /\
  (forall q, q ∈ bpe table vals -> id_from table vals q) /\
  (map_Forall (fun _ node => bpe_value node < INT_MAX) table ->
   forall i x y, bpe table vals !! i = Some x -> bpe table vals !! S i = Some y ->
                 table !! (x.1, y.1) = None).
Proof.
  destruct (bpe_loop_facts (length vals) vals) as (H1 & H2 & H3).
  split; [done|]. split; [|split; [done|]].
  - split; [|by intros ->]. intros Hnil.
    destruct vals as [|v vals]; [done|]. by destruct H2.
  - intros Hranks i x y Hx Hy.
    destruct (table !! (x.1, y.1)) as [node|] eqn:Hnode; [|done].
    pose proof (proj1 (bpe_step_None table (bpe table vals))
                  (bpe_loop_fuel table _ vals (le_n _)) i node) as Hge.
    unfold pair_rank in Hge. rewrite Hx in Hge. simpl in Hge. rewrite Hy in Hge.
    specialize (Hge Hnode). apply Hranks in Hnode. simpl in Hnode. lia.
Qed.

End BpeMoreFacts.

Lemma bpe_result_is_merged_witness :
  example_table !! ((12, 2).1, (3, 1).1) = None.
Proof.
  apply (proj2 (proj2 (proj2 (bpe_result_is_merged example_table
                                [(1, 1); (2, 1); (3, 1)])))
           ltac:(apply (bool_decide_unpack _); vm_compute; reflexivity)
           0%nat (12, 2) (3, 1)); reflexivity.
Defined.

(** ** The tokenizer front end, continued *)

Lemma byte_pairs_ones v s :
  length (byte_pairs v s) = String.length s /\
  Forall (fun p => p.2 = 1) (byte_pairs v s).
Proof.
  induction s as [|c s [IH1 IH2]]; [by split|].
  cbn [byte_pairs]. destruct s as [|c' s]; [split; [done|by repeat constructor]|].
  split; [simpl in *; by rewrite IH1|]. by apply Forall_cons.
Qed.

Lemma sum_lengths_ones (l : list (Z * Z)) :
  Forall (fun p => p.2 = 1) l -> sum_lengths l = Z.of_nat (length l).
Proof.
  induction 1 as [|p l Hp _ IH]; [done|]. rewrite sum_lengths_cons, IH, Hp. simpl. lia.
Qed.

Lemma bpe_byte_pairs_facts v utf8_token :
  Z.of_nat (String.length utf8_token) <= INT_MAX ->
  sum_lengths (bpe (bpe_map_ v) (byte_pairs v utf8_token))
  = Z.of_nat (String.length utf8_token) /\
  Forall (fun p => 0 <= p.2) (bpe (bpe_map_ v) (byte_pairs v utf8_token)) /\
  (length (bpe (bpe_map_ v) (byte_pairs v utf8_token)) <= String.length utf8_token)%nat.
Proof.
  intros Hlen. destruct (byte_pairs_ones v utf8_token) as [Hl Hones].
  pose proof (sum_lengths_ones _ Hones) as Hsum. rewrite Hl in Hsum.
  destruct (bpe_loop_sum (bpe_map_ v) (length (byte_pairs v utf8_token))
              (byte_pairs v utf8_token)) as [Hpos Heq].
  { eapply Forall_impl; [exact Hones|]. simpl. intros p ->. lia. }
  { by rewrite Hsum. }
  split; [unfold bpe; by rewrite Heq|]. split; [done|].
  rewrite <- Hl. apply bpe_loop_facts.
Qed.

(** X6: the lengths that [bpe] leaves for a pre-token are not negative and
    add up to the number of its bytes, and there are at most as many ids as
    bytes. *)
Theorem pretoken_lengths_cover_bytes v utf8_token :
  Z.of_nat (String.length utf8_token) <= INT_MAX ->
  sum_lengths (bpe (bpe_map_ v) (byte_pairs v utf8_token))
  = Z.of_nat (String.length utf8_token) /\
  Forall (fun p => 0 <= p.2) (bpe (bpe_map_ v) (byte_pairs v utf8_token)) /\
  (length (bpe (bpe_map_ v) (byte_pairs v utf8_token)) <= String.length utf8_token)%nat.
Proof. apply bpe_byte_pairs_facts. Qed.

Lemma pretoken_lengths_cover_bytes_witness :
  sum_lengths (bpe (bpe_map_ example_tokenizer) (byte_pairs example_tokenizer "abcd")) = 4.
Proof.
  apply (proj1 (pretoken_lengths_cover_bytes example_tokenizer "abcd"
                  ltac:(vm_compute; discriminate))).
Defined.

Section OffsetFacts.
Variable v : VocabData.
Variable max_length : Z.

Lemma emit_offsets byte_list : forall s,
  Forall (fun p => 0 <= p.2) byte_list ->
  0 <= offset s ->
  offset s + sum_lengths byte_list < 18446744073709551616 ->
  Z.of_nat (length (res s) + length byte_list) <= max_length ->
  res (emit max_length true byte_list s) = res s ++ byte_list.*1 /\
  offset (emit max_length true byte_list s) = offset s + sum_lengths byte_list /\
  length (offset_mapping (emit max_length true byte_list s))
  = (length (offset_mapping s) + length byte_list)%nat.
Proof.
  induction byte_list as [|p byte_list IH]; intros s Hpos Hoff Hsum Hcap.
  { simpl. rewrite app_nil_r. split; [done|]. split; [lia|lia]. }
  apply Forall_cons in Hpos as [Hp Hpos].
  rewrite sum_lengths_cons in Hsum. pose proof (sum_lengths_nonneg _ Hpos) as Hn.
  cbn [emit]. simpl in Hcap.
  destruct (Z.of_nat (length (res s)) >=? max_length) eqn:E; [lia|].
  assert (wrap_size_t (offset s + p.2) = offset s + p.2) as Hw.
  { unfold wrap_size_t. apply Z.mod_small. lia. }
  rewrite Hw.
  destruct (IH (mkTokState (res s ++ [p.1]) (offset s + p.2)
                  (offset_mapping s ++ [(offset s, offset s + p.2)]))) as (IH1 & IH2 & IH3);
    cbn [res offset offset_mapping]; [done|lia|lia|rewrite length_app; simpl; lia|].
  cbn [res offset offset_mapping] in IH1, IH2, IH3.
  rewrite IH1, IH2, IH3, length_app, sum_lengths_cons, <- app_assoc. simpl.
  split; [done|]. split; lia.
Qed.

(** X7: with offsets asked for and room under the cap for every id of a
    pre-token, the pre-token appends all its ids, one span for each of them,
    and moves the running offset past its bytes: by one for a leading space,
    and by the number of the bytes that are not spaces.  The number of these
    bytes is an [int] and the offset moved past them a [size_t], so that
    neither the lengths summed by [bpe] nor the offset wrap. *)
Theorem tokenize_token_advances_offset tok s :
  let utf8_token := string_of_ustring tok in
  let bytes := String.length (remove_char " " utf8_token) in
  let s' := tokenize_token v max_length true tok s in
  Z.of_nat bytes <= INT_MAX ->
  0 <= offset s ->
  offset s + 1 + Z.of_nat bytes < 18446744073709551616 ->
  Z.of_nat (length (res s) + length (token_ids v tok)) <= max_length ->
  offset s' = offset s + (if leading_space utf8_token then 1 else 0) + Z.of_nat bytes /\
  length (offset_mapping s')
  = (length (offset_mapping s) + length (token_ids v tok))%nat /\
  res s' = res s ++ token_ids v tok.
Proof.
  intros utf8_token bytes s' Hbytes Hoff Hfit Hcap.
  destruct (bpe_byte_pairs_facts v (remove_char " " utf8_token) Hbytes)
    as (Hsum & Hpos & Hlen).
  fold bytes in Hsum, Hlen.
  unfold token_ids in Hcap. rewrite length_fmap in Hcap. fold utf8_token in Hcap.
  unfold s', tokenize_token. fold utf8_token. cbn [andb].
  set (s1 := if leading_space utf8_token
             then {| res := res s; offset := wrap_size_t (offset s + 1);
                     offset_mapping := offset_mapping s |}
             else s).
  assert (res s1 = res s /\ offset_mapping s1 = offset_mapping s /\
          offset s1 = offset s + (if leading_space utf8_token then 1 else 0)) as (R1 & R2 & R3).
  { unfold s1. destruct (leading_space utf8_token); cbn [res offset offset_mapping].
    - split; [done|]. split; [done|]. unfold wrap_size_t. apply Z.mod_small. lia.
    - split; [done|]. split; [done|]. lia. }
  destruct (emit_offsets (bpe (bpe_map_ v) (byte_pairs v (remove_char " " utf8_token))) s1)
    as (E1 & E2 & E3); [done| | | |].
  - rewrite R3. destruct (leading_space utf8_token); lia.
  - rewrite R3, Hsum. destruct (leading_space utf8_token); lia.
  - by rewrite R1.
  - rewrite E1, E2, E3, R1, R2, R3, Hsum. unfold token_ids. fold utf8_token.
    rewrite length_fmap. done.
Qed.

End OffsetFacts.

Lemma tokenize_token_advances_offset_witness :
  offset (tokenize_token example_tokenizer 3 true (U " abcd") (mkTokState [517] 0 [(0, 0)]))
  = 0 + (if leading_space (string_of_ustring (U " abcd")) then 1 else 0)
    + Z.of_nat (String.length (remove_char " " (string_of_ustring (U " abcd")))).
Proof.
  apply (proj1 (tokenize_token_advances_offset example_tokenizer 3 (U " abcd")
                  (mkTokState [517] 0 [(0, 0)])
                  ltac:(vm_compute; discriminate)
                  ltac:(vm_compute; discriminate)
                  ltac:(vm_compute; reflexivity)
                  ltac:(vm_compute; discriminate))).
Defined.


Section TokenizeOffsets.
Variable category : Z -> Z.
Variables cat_L cat_N cat_Z : Z.
Variable ToLower : Z -> Z.
Variable v : VocabData.
Variable max_length : Z.

Lemma segments_loop_offset_map compute_offset_mapping segs : forall r offset_map,
  offset_map `prefix_of`
    (segments_loop category cat_L cat_N cat_Z v max_length compute_offset_mapping
       segs r offset_map).2 /\
  (compute_offset_mapping = false ->
   (segments_loop category cat_L cat_N cat_Z v max_length compute_offset_mapping
      segs r offset_map).2 = offset_map).
Proof.
  induction segs as [|seg_id segs IH]; intros r offset_map; [done|].
  cbn [segments_loop].
  destruct (Z.of_nat (length r) >=? max_length); [done|].
  destruct (negb (seg_id.2 =? -1)); [apply IH|].
  destruct compute_offset_mapping.
  - split; [|done]. etrans; [|apply IH]. by apply prefix_app_r.
  - apply IH.
Qed.

(** X8: the ids that [Tokenize] returns depend neither on the request for
    offsets nor on the offsets gathered before; the call appends to the
    offsets it is given, and leaves them alone when none are asked for. *)
Theorem Tokenize_ids_independent_of_offsets input :
  (forall c c' offset_map offset_map',
     (Tokenize category cat_L cat_N cat_Z ToLower v max_length c input offset_map).1
     = (Tokenize category cat_L cat_N cat_Z ToLower v max_length c' input offset_map').1) /\
  (forall c offset_map,
     offset_map `prefix_of`
       (Tokenize category cat_L cat_N cat_Z ToLower v max_length c input offset_map).2) /\
  (forall offset_map,
     (Tokenize category cat_L cat_N cat_Z ToLower v max_length false input offset_map).2
     = offset_map).
Proof.
  destruct (IsEmptyUString (WhiteSpaceClean input)) eqn:E.
  { unfold Tokenize. rewrite E. by repeat split. }
  split; [|split].
  - intros c c' offset_map offset_map'. by rewrite !Tokenize_res.
  - intros c offset_map. unfold Tokenize. rewrite E.
    pose proof (segments_loop_offset_map c
      (SplitBySpecialTokens (special_tokens_ v) (ToLower <$> WhiteSpaceClean input))
      [GetEncoding v "<|startoftext|>"] offset_map) as [H _].
    by destruct (segments_loop _ _ _ _ _ _ _ _ _ _).
  - intros offset_map. unfold Tokenize. rewrite E.
    pose proof (segments_loop_offset_map false
      (SplitBySpecialTokens (special_tokens_ v) (ToLower <$> WhiteSpaceClean input))
      [GetEncoding v "<|startoftext|>"] offset_map) as [_ H].
    specialize (H eq_refl).
    by destruct (segments_loop _ _ _ _ _ _ _ _ _ _).
Qed.

End TokenizeOffsets.

(** ** Loading, continued *)

Lemma extract_words_nonempty s : forall cur w,
  w ∈ extract_words cur s -> w <> ""%string.
Proof.
  induction s as [|c s IH]; intros cur w; simpl.
  - destruct (decide (cur = ""%string)); [by intros ?%elem_of_nil|].
    by intros ->%list_elem_of_singleton.
  - destruct (isspace c); [|apply IH].
    intros [Hin|Hin]%elem_of_app; [|by eapply IH].
    destruct (decide (cur = ""%string)); [by apply elem_of_nil in Hin|].
    by apply list_elem_of_singleton in Hin as ->.
Qed.

Section LoadFacts.
Variable ustring_of_string : string -> list Z.

Lemma special_token_line_Ok s w s' :
  special_token_line ustring_of_string s w = Ok s' ->
  w <> ""%string -> SpecialTokenMap_wf s.2 ->
  s.1 ⊆ s'.1 /\ SpecialTokenMap_wf s'.2 /\
  (forall st, st ∈ token_list_ s.2 -> st ∈ token_list_ s'.2) /\
  exists i, s'.1 !! remove_char "013" w = Some i /\
            mkSpecialTokenInfo (ustring_of_string (remove_char "013" w)) i
              ∈ token_list_ s'.2.
Proof.
  unfold special_token_line. destruct w as [|c w]; [done|]. intros H _ Hwf.
  set (line := remove_char "013" (String c w)) in *.
  destruct (s.1 !! line) as [i|] eqn:Hlook.
  - apply bind_Ok in H as (sp & Hadd & [= <-]).
    destruct (Add_Ok_wf _ _ _ _ Hadd Hwf) as (Hwf' & Hkeep & Hin).
    split; [done|]. split; [done|]. split; [done|]. by exists i.
  - apply bind_Ok in H as (sp & Hadd & [= <-]).
    destruct (Add_Ok_wf _ _ _ _ Hadd Hwf) as (Hwf' & Hkeep & Hin).
    split; [by apply insert_subseteq|]. split; [done|]. split; [done|].
    exists (Z.of_nat (size s.1)). split; [apply lookup_insert_eq|done].
Qed.

Lemma special_tokens_loop words : forall s s',
  for_each (special_token_line ustring_of_string) words s = Ok s' ->
  SpecialTokenMap_wf s.2 ->
  s.1 ⊆ s'.1 /\ SpecialTokenMap_wf s'.2 /\
  (forall st, st ∈ token_list_ s.2 -> st ∈ token_list_ s'.2) /\
  forall w, w ∈ words -> w <> ""%string ->
    exists i, s'.1 !! remove_char "013" w = Some i /\
              mkSpecialTokenInfo (ustring_of_string (remove_char "013" w)) i
                ∈ token_list_ s'.2.
Proof.
  induction words as [|w0 words IH]; intros s s' Hrun Hwf.
  { injection Hrun as <-. split; [done|]. split; [done|]. split; [done|].
    by intros w ?%elem_of_nil. }
  cbn [for_each] in Hrun. apply bind_Ok in Hrun as (s1 & Hline & Hrun).
  assert (s.1 ⊆ s1.1 /\ SpecialTokenMap_wf s1.2 /\
          (forall st, st ∈ token_list_ s.2 -> st ∈ token_list_ s1.2) /\
          (w0 <> ""%string ->
           exists i, s1.1 !! remove_char "013" w0 = Some i /\
                     mkSpecialTokenInfo (ustring_of_string (remove_char "013" w0)) i
                       ∈ token_list_ s1.2)) as (Hsub1 & Hwf1 & Hkeep1 & Hw0).
  { destruct (decide (w0 = ""%string)) as [->|Hne].
    - simpl in Hline. injection Hline as <-.
      split; [done|]. split; [done|]. split; [done|]. intros []; done.
    - destruct (special_token_line_Ok _ _ _ Hline Hne Hwf) as (? & ? & ? & ?).
      split; [done|]. split; [done|]. split; [done|]. done. }
  destruct (IH _ _ Hrun Hwf1) as (Hsub & Hwf' & Hkeep & Hwords).
  split; [by etrans|]. split; [done|]. split; [by auto|].
  intros w [->|Hin]%elem_of_cons Hne; [|by apply Hwords].
  destruct (Hw0 Hne) as (i & Hi & Hst). exists i. split; [|by auto].
  by eapply lookup_weaken.
Qed.

Lemma Load_Ok tok_json merges_stream unk_token special_tokens v :
  Load ustring_of_string tok_json merges_stream unk_token special_tokens = Ok v ->
  exists be m vs,
    build_byte_encoder (find_unk_token tok_json unk_token).1 = Ok be /\
    load_merges (find_unk_token tok_json unk_token).1 merges_stream = Ok m /\
    match special_tokens with
    | None => Ok ((find_unk_token tok_json unk_token).1, SpecialTokenMap_empty)
    | Some s =>
        for_each (special_token_line ustring_of_string) (extract_words "" s)
          ((find_unk_token tok_json unk_token).1, SpecialTokenMap_empty)
    end = Ok vs /\
    v = {| bpe_map_ := m.2; byte_encoder_ := be; vocab_map_ := vs.1;
           id2token_map_ := build_id2token vs.1;
           unk_id_ := (find_unk_token tok_json unk_token).2;
           special_tokens_ := vs.2 |}.
Proof.
  unfold Load. destruct (find_unk_token tok_json unk_token) as [vocab_map unk_id].
  intros (be & Hbe & H)%bind_Ok. apply bind_Ok in H as (m & Hm & H).
  apply bind_Ok in H as (vs & Hvs & H). injection H as <-.
  by exists be, m, vs.
Qed.

Lemma SpecialTokenMap_empty_wf : SpecialTokenMap_wf SpecialTokenMap_empty.
Proof.
  split; [by apply Forall_nil|]. split; [apply NoDup_nil_2|].
  intros s i. simpl. rewrite lookup_empty. split; [done|by intros ?%elem_of_nil].
Qed.

(** X9: a successful [Load] keeps every entry of the parsed vocabulary and
    adds the unknown token and the special tokens where they are missing.
    [unk_id_] is the id the parsed vocabulary gives the unknown token, and
    stays -1 when the token gets its id in [Load]: unknown keys then encode
    as -1.  Every special token is in the vocabulary and in the registry
    under one id, and the registry is consistent. *)
Theorem Load_vocabulary tok_json merges_stream unk_token special_tokens v :
  Load ustring_of_string tok_json merges_stream unk_token special_tokens = Ok v ->
  tok_json ⊆ vocab_map_ v /\
  is_Some (vocab_map_ v !! unk_token) /\
  unk_id_ v = default (-1) (tok_json !! unk_token) /\
  (tok_json !! unk_token = None ->
   vocab_map_ v !! unk_token = Some (Z.of_nat (size tok_json)) /\
   forall key, vocab_map_ v !! key = None -> GetEncoding v key = -1) /\
  SpecialTokenMap_wf (special_tokens_ v) /\
  (forall s w, special_tokens = Some s -> w ∈ extract_words "" s ->
     exists i, vocab_map_ v !! remove_char "013" w = Some i /\
               mkSpecialTokenInfo (ustring_of_string (remove_char "013" w)) i
                 ∈ token_list_ (special_tokens_ v)).
Proof.
  intros (be & m & vs & _ & _ & Hvs & ->)%Load_Ok. cbn [vocab_map_ unk_id_ special_tokens_].
  assert (tok_json ⊆ (find_unk_token tok_json unk_token).1 /\
          (find_unk_token tok_json unk_token).1 !! unk_token
          = Some (default (Z.of_nat (size tok_json)) (tok_json !! unk_token)) /\
          (find_unk_token tok_json unk_token).2 = default (-1) (tok_json !! unk_token))
    as (Hsub0 & Hunk0 & Hid).
  { unfold find_unk_token. destruct (tok_json !! unk_token) as [i|] eqn:E; simpl.
    - done.
    - split; [by apply insert_subseteq|]. split; [apply lookup_insert_eq|done]. }
  assert ((find_unk_token tok_json unk_token).1 ⊆ vs.1 /\
          SpecialTokenMap_wf vs.2 /\
          forall s w, special_tokens = Some s -> w ∈ extract_words "" s ->
            exists i, vs.1 !! remove_char "013" w = Some i /\
                      mkSpecialTokenInfo (ustring_of_string (remove_char "013" w)) i
                        ∈ token_list_ vs.2) as (Hsub & Hwf & Hsp).
  { destruct special_tokens as [s|].
    - apply special_tokens_loop in Hvs as (H1 & H2 & _ & H4); [|apply SpecialTokenMap_empty_wf].
      split; [done|]. split; [done|]. intros s' w [= <-] Hw.
      apply H4; [done|]. by eapply extract_words_nonempty.
    - injection Hvs as <-. split; [done|]. split; [apply SpecialTokenMap_empty_wf|done]. }
  pose proof (lookup_weaken _ _ _ _ Hunk0 Hsub) as Hunk.
  split; [by etrans|]. split; [by eexists|]. split; [done|]. split; [|done].
  intros Hnone. rewrite Hnone in Hunk. split; [done|].
  intros key Hkey. unfold GetEncoding. cbn [vocab_map_ unk_id_].
  rewrite Hkey, Hid, Hnone. done.
Qed.

End LoadFacts.

Lemma Load_vocabulary_witness :
  vocab_map_ example_tokenizer !! "<|endoftext|>"%string = Some 516 /\
  forall key, vocab_map_ example_tokenizer !! key = None ->
              GetEncoding example_tokenizer key = -1.
Proof.
  assert (example_json !! "<|endoftext|>"%string = None) as Hnone
    by (vm_compute; reflexivity).
  assert (Z.of_nat (size example_json) = 516) as Hsize by (vm_compute; reflexivity).
  rewrite <- Hsize.
  refine (proj1 (proj2 (proj2 (proj2
    (Load_vocabulary ascii_decode example_json example_merges "<|endoftext|>"
       (Some example_special) example_tokenizer _)))) Hnone).
  reflexivity.
Defined.

(** *** What [Load] needs *)

Lemma build_byte_encoder_needs vocab be c :
  build_byte_encoder vocab = Ok be -> c ∈ byte_chars ->
  is_Some (vocab !! EncodeUTF8Char c).
Proof.
  intros (be1 & be2 & be3 & be4 & be5 & i4 & i5 & i6 & E1 & E2 & E3 & E4 & E5 & E6)%build_byte_encoder_Ok.
  apply for_each_encode_own in E1 as (L1 & In1 & _).
  apply for_each_encode_own in E2 as (L2 & In2 & _).
  apply for_each_encode_own in E3 as (L3 & In3 & _).
  apply for_each_encode_next in E4 as (-> & L4 & In4 & _); [|apply NoDup_seq].
  apply for_each_encode_next in E5 as (-> & L5 & In5 & _); [|apply NoDup_seq].
  apply encode_next_Ok in E6 as (v6 & Hv6 & _). cbn [fst snd] in *.
  rewrite length_replicate in L1. rewrite !length_seq in *.
  unfold byte_chars. intros (j & -> & Hj)%list_elem_of_fmap.
  rewrite !elem_of_app, !elem_of_seq in Hj.
  destruct Hj as [Hj|[Hj|[Hj|Hj]]].
  - destruct (In1 j) as (w & Hw & _); [by apply elem_of_seq|rewrite length_replicate; lia|].
    by eexists.
  - destruct (In2 j) as (w & Hw & _); [by apply elem_of_seq|lia|]. by eexists.
  - destruct (In3 j) as (w & Hw & _); [by apply elem_of_seq|lia|]. by eexists.
  - destruct (decide (j < 256 + 33)%nat) as [Hlt|Hge].
    + destruct (In4 (j - 256)%nat (j - 256)%nat) as (w & Hw & _).
      { rewrite lookup_seq_lt by lia. done. }
      { lia. }
      exists w. rewrite <- Hw. f_equal. f_equal. lia.
    + destruct (decide (j < 256 + 67)%nat) as [Hlt|Hge'].
      * destruct (In5 (j - 289)%nat (127 + (j - 289))%nat) as (w & Hw & _).
        { rewrite lookup_seq_lt by lia. done. }
        { lia. }
        exists w. rewrite <- Hw. f_equal. f_equal. lia.
      * exists v6. rewrite <- Hv6. f_equal. f_equal. lia.
Qed.

Lemma record_merge_Ok vocab s line s' :
  record_merge vocab s line = Ok s' ->
  exists pos i1 i2 i12 token_length,
    find_char " " line = Some pos /\
    vocab !! String.substring 0 pos line = Some i1 /\
    vocab !! substr_from (pos + 1) line = Some i2 /\
    vocab !! (String.substring 0 pos line ++ substr_from (pos + 1) line)%string = Some i12 /\
    s' = (add32 s.1 1, <[(i1, i2) := mkBpeNode i12 s.1 token_length]> s.2).
Proof.
  unfold record_merge. destruct (find_char " " line) as [pos|]; [|done].
  intros (n & _ & H)%bind_Ok. apply bind_Ok in H as (i1 & H1 & H).
  apply bind_Ok in H as (i2 & H2 & H). apply bind_Ok in H as (i12 & H12 & H).
  injection H as <-. unfold GetVocabIndex in *.
  destruct (vocab !! String.substring 0 pos line) as [j1|] eqn:E1; [|done].
  destruct (vocab !! substr_from (pos + 1) line) as [j2|] eqn:E2; [|done].
  destruct (vocab !! (_ ++ _)%string) as [j12|] eqn:E12; [|done].
  injection H1 as <-. injection H2 as <-. injection H12 as <-.
  eexists pos, j1, j2, j12, _. by rewrite E1, E2, E12.
Qed.

Lemma merges_line_Ok vocab s line s' :
  merges_line vocab s line = Ok s' ->
  s' = s \/ record_merge vocab s (remove_char "013" line) = Ok s'.
Proof.
  unfold merges_line. destruct (remove_char "013" line) as [|c rest]; [intros [= <-]; by left|].
  destruct (Ascii.eqb c "#" && (s.1 =? 0)); [intros [= <-]; by left|]. by right.
Qed.

Lemma merges_loop_rules vocab lines_ : forall s s',
  for_each (merges_line vocab) lines_ s = Ok s' ->
  (forall k, is_Some (s.2 !! k) -> is_Some (s'.2 !! k)) /\
  forall line c rest,
    line ∈ lines_ -> remove_char "013" line = String c rest -> c <> "#"%char ->
    exists pos i1 i2 i12,
      find_char " " (String c rest) = Some pos /\
      vocab !! String.substring 0 pos (String c rest) = Some i1 /\
      vocab !! substr_from (pos + 1) (String c rest) = Some i2 /\
      vocab !! (String.substring 0 pos (String c rest)
                ++ substr_from (pos + 1) (String c rest))%string = Some i12 /\
      is_Some (s'.2 !! (i1, i2)).
Proof.
  induction lines_ as [|l0 lines_ IH]; intros s s' Hrun.
  { injection Hrun as <-. split; [done|]. by intros line c rest ?%elem_of_nil. }
  cbn [for_each] in Hrun. apply bind_Ok in Hrun as (s1 & Hline & Hrun).
  destruct (IH _ _ Hrun) as [Hkeep Hrules].
  assert (forall k, is_Some (s.2 !! k) -> is_Some (s1.2 !! k)) as Hkeep1.
  { apply merges_line_Ok in Hline as [->|Hrec]; [done|].
    apply record_merge_Ok in Hrec as (pos & i1 & i2 & i12 & len & _ & _ & _ & _ & ->).
    intros k Hk. cbn [snd]. rewrite lookup_insert. by case_decide. }
  split; [by auto|].
  intros line c rest [->|Hin]%elem_of_cons Hclean Hc; [|by eapply Hrules].
  rewrite (merges_line_rule _ _ _ c rest) in Hline by auto.
  apply record_merge_Ok in Hline as (pos & i1 & i2 & i12 & len & Hpos & H1 & H2 & H12 & ->).
  exists pos, i1, i2, i12. repeat (split; [done|]).
  apply Hkeep. cbn [snd]. rewrite lookup_insert_eq. by eexists.
Qed.

(** X10: [Load] succeeds only if the vocabulary holds the characters of the
    256 byte code points, and every merges line that is not blank and does
    not start with [#] has a space and two words that, like their
    concatenation, are in the vocabulary; the merge table then has an entry
    for the ids of the two words. *)
Theorem Load_requirements ustring_of_string tok_json merges_stream unk_token
    special_tokens v :
  Load ustring_of_string tok_json merges_stream unk_token special_tokens = Ok v ->
  let vocab := (find_unk_token tok_json unk_token).1 in
  length (byte_encoder_ v) = 256%nat /\
  (forall c, c ∈ byte_chars -> is_Some (vocab !! EncodeUTF8Char c)) /\
  (forall line c rest,
     line ∈ getlines "" merges_stream ->
     remove_char "013" line = String c rest -> c <> "#"%char ->
     exists pos i1 i2 i12,
       find_char " " (String c rest) = Some pos /\
       vocab !! String.substring 0 pos (String c rest) = Some i1 /\
       vocab !! substr_from (pos + 1) (String c rest) = Some i2 /\
       vocab !! (String.substring 0 pos (String c rest)
                 ++ substr_from (pos + 1) (String c rest))%string = Some i12 /\
       is_Some (bpe_map_ v !! (i1, i2))).
Proof.
  intros (be & m & vs & Hbe & Hm & _ & ->)%Load_Ok vocab.
  cbn [byte_encoder_ bpe_map_]. split; [|split].
  - apply build_byte_encoder_Ok in Hbe
      as (be1 & be2 & be3 & be4 & be5 & i4 & i5 & i6 & E1 & E2 & E3 & E4 & E5 & E6).
    apply for_each_encode_own in E1 as (L1 & _).
    apply for_each_encode_own in E2 as (L2 & _).
    apply for_each_encode_own in E3 as (L3 & _).
    apply for_each_encode_next in E4 as (_ & L4 & _); [|apply NoDup_seq].
    apply for_each_encode_next in E5 as (_ & L5 & _); [|apply NoDup_seq].
    apply encode_next_Ok in E6 as (v6 & _ & [= _ ->]).
    rewrite length_insert. rewrite length_replicate in L1. congruence.
  - intros c Hc. by eapply build_byte_encoder_needs.
  - apply (merges_loop_rules _ _ _ _ Hm).
Qed.

Lemma Load_requirements_witness :
  length (byte_encoder_ example_tokenizer) = 256%nat /\
  (forall c, c ∈ byte_chars ->
     is_Some ((find_unk_token example_json "<|endoftext|>").1 !! EncodeUTF8Char c)) /\
  (forall line c rest,
     line ∈ getlines "" example_merges ->
     remove_char "013" line = String c rest -> c <> "#"%char ->
     exists pos i1 i2 i12,
       find_char " " (String c rest) = Some pos /\
       (find_unk_token example_json "<|endoftext|>").1
         !! String.substring 0 pos (String c rest) = Some i1 /\
       (find_unk_token example_json "<|endoftext|>").1
         !! substr_from (pos + 1) (String c rest) = Some i2 /\
       (find_unk_token example_json "<|endoftext|>").1
         !! (String.substring 0 pos (String c rest)
             ++ substr_from (pos + 1) (String c rest))%string = Some i12 /\
       is_Some (bpe_map_ example_tokenizer !! (i1, i2))).
Proof.
  apply (Load_requirements ascii_decode example_json example_merges "<|endoftext|>"
           (Some example_special) example_tokenizer).
  reflexivity.
Defined.

(** *** The ranks of the merge table *)

Lemma merges_line_ranks_below vocab s line s' :
  merges_line vocab s line = Ok s' ->
  0 <= s.1 < INT_MAX -> ranks_below s.1 s.2 ->
  s.1 <= s'.1 <= s.1 + 1 /\ ranks_below s'.1 s'.2.
Proof.
  intros [->|Hrec]%merges_line_Ok Hs [Hall Hinj]; [split; [lia|done]|].
  apply record_merge_Ok in Hrec as (pos & i1 & i2 & i12 & len & _ & _ & _ & _ & ->).
  cbn [fst snd]. rewrite add32_succ by done. split; [lia|]. split.
  - apply map_Forall_insert_2; [simpl; lia|].
    eapply map_Forall_impl; [exact Hall|]. simpl. intros _ node ?. lia.
  - intros k1 k2 n1 n2. rewrite !lookup_insert.
    repeat case_decide; simplify_eq; try done.
    + intros [= <-] H2 Heq. apply Hall in H2. simpl in *. lia.
    + intros H1 [= <-] Heq. apply Hall in H1. simpl in *. lia.
    + apply Hinj.
Qed.

(** X11: the ranks of the table that the merges make are not negative and
    below the number of lines, and two different pairs never have the same
    rank. *)
Theorem load_merges_rank_bounds vocab merges_stream index table :
  load_merges vocab merges_stream = Ok (index, table) ->
  Z.of_nat (length (getlines "" merges_stream)) <= INT_MAX ->
  0 <= index <= Z.of_nat (length (getlines "" merges_stream)) /\
  map_Forall (fun _ node => 0 <= bpe_value node < index) table /\
  (forall k1 k2 n1 n2,
     table !! k1 = Some n1 -> table !! k2 = Some n2 ->
     bpe_value n1 = bpe_value n2 -> k1 = k2).
Proof.
  unfold load_merges.
  assert (forall l s s',
            for_each (merges_line vocab) l s = Ok s' ->
            0 <= s.1 -> s.1 + Z.of_nat (length l) <= INT_MAX ->
            ranks_below s.1 s.2 ->
            s.1 <= s'.1 <= s.1 + Z.of_nat (length l) /\ ranks_below s'.1 s'.2) as Hloop.
  { induction l as [|line l IH]; intros s s' Hrun H0 Hlen Hall.
    - injection Hrun as <-. split; [simpl; lia|done].
    - cbn [for_each] in Hrun. apply bind_Ok in Hrun as (s1 & Hline & Hrun).
      simpl in Hlen.
      apply merges_line_ranks_below in Hline as [Hidx Hall1]; [|lia|done].
      apply IH in Hrun as [Hidx' Hall']; [|lia|lia|done].
      split; [simpl; lia|done]. }
  intros Hrun Hlen.
  apply Hloop in Hrun as [Hidx [Hall Hinj]]; [|done|simpl; lia|].
  - simpl in *. split; [lia|]. by split.
  - split; [by apply map_Forall_empty|]. simpl. intros k1 k2 n1 n2. by rewrite lookup_empty.
Qed.

Lemma load_merges_rank_bounds_witness :
  0 <= 2 <= Z.of_nat (length (getlines "" example_merges)) /\
  map_Forall (fun _ node => 0 <= bpe_value node < 2) (bpe_map_ example_tokenizer) /\
  (forall k1 k2 n1 n2,
     bpe_map_ example_tokenizer !! k1 = Some n1 ->
     bpe_map_ example_tokenizer !! k2 = Some n2 ->
     bpe_value n1 = bpe_value n2 -> k1 = k2).
Proof.
  apply (load_merges_rank_bounds (find_unk_token example_json "<|endoftext|>").1
           example_merges 2 (bpe_map_ example_tokenizer)).
  - vm_compute. reflexivity.
  - vm_compute. discriminate.
Defined.

(** *** The inverse array *)

Lemma values_NoDup_injective (m : gmap string Z) t1 t2 i :
  NoDup (map_to_list m).*2 -> m !! t1 = Some i -> m !! t2 = Some i -> t1 = t2.
Proof.
  intros Hnd H1%elem_of_map_to_list H2%elem_of_map_to_list.
  apply list_elem_of_lookup in H1 as [j1 H1]. apply list_elem_of_lookup in H2 as [j2 H2].
  assert (j1 = j2) as ->.
  { apply (NoDup_lookup _ _ _ i Hnd); rewrite list_lookup_fmap.
    - by rewrite H1.
    - by rewrite H2. }
  congruence.
Qed.

Lemma build_id2token_fold (n : nat) (m : gmap string Z) :
  (forall t i, m !! t = Some i -> 0 <= i < Z.of_nat n) ->
  (forall t1 t2 i, m !! t1 = Some i -> m !! t2 = Some i -> t1 = t2) ->
  length (map_fold (fun t i acc => if 0 <=? i then <[Z.to_nat i := t]> acc else acc)
            (replicate n ""%string) m) = n /\
  forall t i, m !! t = Some i ->
    map_fold (fun t i acc => if 0 <=? i then <[Z.to_nat i := t]> acc else acc)
      (replicate n ""%string) m !! Z.to_nat i = Some t.
Proof.
  apply (map_fold_weak_ind
    (fun r (m : gmap string Z) =>
       (forall t i, m !! t = Some i -> 0 <= i < Z.of_nat n) ->
       (forall t1 t2 i, m !! t1 = Some i -> m !! t2 = Some i -> t1 = t2) ->
       length r = n /\ forall t i, m !! t = Some i -> r !! Z.to_nat i = Some t)).
  - intros _ _. split; [apply length_replicate|]. intros t i. by rewrite lookup_empty.
  - intros t i m' r Hnone IH Hrange Hinj.
    destruct IH as [Hlen Hlook].
    { intros t' i' H'. apply (Hrange t'). rewrite lookup_insert_ne; [done|congruence]. }
    { intros t1 t2 i' H1 H2. apply (Hinj t1 t2 i'); rewrite lookup_insert_ne; congruence. }
    pose proof (Hrange t i (lookup_insert_eq _ _ _)) as Hi.
    destruct (0 <=? i) eqn:E; [|lia]. split; [by rewrite length_insert|].
    intros t' i'. rewrite lookup_insert. case_decide as Ht.
    + intros [= <-]. subst t'. apply list_lookup_insert_eq. lia.
    + intros H'. rewrite list_lookup_insert_ne; [by apply Hlook|].
      intros Heq. apply Ht. apply (Hinj t t' i).
      * apply lookup_insert_eq.
      * rewrite lookup_insert_ne by done.
        pose proof (Hrange t' i') as Hr. rewrite lookup_insert_ne in Hr by done.
        specialize (Hr H'). replace i with i' by lia. done.
Qed.

(** X12: after a [Load] that leaves the ids of the vocabulary dense (the
    numbers below its size, each used once), [IdToToken] undoes [TokenToID];
    [IdToToken] refuses the ids that are negative or not below the size of
    the vocabulary, and [TokenToID] refuses a token that [GetEncoding] maps
    to [unk_id_]. *)
Theorem IdToToken_inverts_TokenToID ustring_of_string tok_json merges_stream unk_token
    special_tokens v :
  Load ustring_of_string tok_json merges_stream unk_token special_tokens = Ok v ->
  dense_ids (vocab_map_ v) ->
  (forall t i, TokenToID v t = Ok i -> IdToToken v i = Ok t) /\
  (forall i, i < 0 \/ Z.of_nat (VocabSize v) <= i -> IdToToken v i = Err "Invalid ID") /\
  (forall t, vocab_map_ v !! t = None ->
     TokenToID v t = Err ("Token not found: " ++ t) /\ GetEncoding v t = unk_id_ v).
Proof.
  intros (be & m & vs & _ & _ & _ & ->)%Load_Ok [Hrange Hnd].
  cbn [vocab_map_] in *.
  destruct (build_id2token_fold (size vs.1) vs.1) as [Hlen Hlook].
  { intros t i Hi. by apply (Hrange t). }
  { intros t1 t2 i. by apply values_NoDup_injective. }
  fold (build_id2token vs.1) in Hlen, Hlook.
  unfold TokenToID, IdToToken, GetEncoding, VocabSize.
  cbn [vocab_map_ id2token_map_ unk_id_]. rewrite Hlen.
  split; [|split].
  - intros t i. destruct (vs.1 !! t) as [j|] eqn:Ht; [|done]. intros [= ->].
    pose proof (Hrange _ _ Ht) as Hr. simpl in Hr.
    destruct (i <? 0) eqn:E1; [lia|]. destruct (Z.of_nat (size vs.1) <=? i) eqn:E2; [lia|].
    simpl. f_equal. apply list_lookup_total_correct. by apply Hlook.
  - intros i [Hi|Hi].
    + destruct (i <? 0) eqn:E1; [done|lia].
    + destruct (Z.of_nat (size vs.1) <=? i) eqn:E2; [by rewrite orb_true_r|lia].
  - intros t ->. done.
Qed.

Lemma IdToToken_inverts_TokenToID_witness :
  IdToToken example_tokenizer 512 = Ok "ab"%string.
Proof.
  apply (proj1 (IdToToken_inverts_TokenToID ascii_decode example_json example_merges
                  "<|endoftext|>" (Some example_special) example_tokenizer
                  ltac:(reflexivity)
                  ltac:(split; apply (bool_decide_unpack _); vm_compute; reflexivity))).
  vm_compute. reflexivity.
Defined.

(** ** The kernel *)

Lemma token_row_length max_length pad_token r :
  length (token_row max_length pad_token r) = Nat.max max_length (length r).
Proof. unfold token_row. rewrite length_app, length_replicate. lia. Qed.

Lemma mask_row_length max_length r :
  length (mask_row max_length r) = Nat.max max_length (length r).
Proof. unfold mask_row. rewrite length_app, !length_replicate. lia. Qed.

Lemma mask_row_sum max_length r :
  foldr Z.add 0 (mask_row max_length r) = Z.of_nat (length r).
Proof.
  unfold mask_row. rewrite foldr_app.
  assert (forall n, foldr Z.add 0 (replicate n 0) = 0) as ->.
  { induction n as [|n IH]; [done|]. simpl. by rewrite IH. }
  induction (length r) as [|n IH]; [done|]. simpl. rewrite IH. lia.
Qed.

Lemma foldl_max_le (results : list (list Z)) : forall m0 r,
  r ∈ results -> (length r <= foldl (fun m r => Nat.max m (length r)) m0 results)%nat.
Proof.
  assert (forall (l : list (list Z)) m0,
            (m0 <= foldl (fun m r => Nat.max m (length r)) m0 l)%nat) as Hmono.
  { induction l as [|r l IH]; intros m0; [done|]. simpl. etrans; [|apply IH]. lia. }
  induction results as [|r0 results IH]; intros m0 r; [by intros ?%elem_of_nil|].
  simpl. intros [->|Hin]%elem_of_cons; [|by apply IH].
  etrans; [|apply Hmono]. lia.
Qed.

Lemma foldl_max_attained (results : list (list Z)) : forall m0,
  foldl (fun m r => Nat.max m (length r)) m0 results = m0 \/
  Exists (fun r => length r = foldl (fun m r => Nat.max m (length r)) m0 results)
    results.
Proof.
  induction results as [|r results IH]; intros m0; [by left|].
  cbn [foldl]. destruct (IH (Nat.max m0 (length r))) as [Hm | Hex].
  - destruct (Nat.max_spec m0 (length r)) as [[_ Hmax] | [_ Hmax]].
    + right. apply Exists_cons_hd. by rewrite Hm.
    + left. by rewrite Hm.
  - right. by apply Exists_cons_tl.
Qed.

Lemma bind_rows_length {A} (f : list Z -> list A) (results : list (list Z)) (m : nat) :
  Forall (fun r => length (f r) = m) results ->
  length (results ≫= f) = (length results * m)%nat.
Proof.
  induction 1 as [|r results Hr _ IH]; [done|].
  change ((r :: results) ≫= f) with (f r ++ (results ≫= f)).
  rewrite length_app, Hr, IH. simpl. lia.
Qed.

Section ComputeFacts.
Variable category : Z -> Z.
Variables cat_L cat_N cat_Z : Z.
Variable ToLower : Z -> Z.
Variable ustring_of_string : string -> list Z.
Variable v : VocabData.

Lemma tokenize_inputs_length padding_length_ c str_input : forall offset_map,
  length (tokenize_inputs category cat_L cat_N cat_Z ToLower ustring_of_string v
            padding_length_ c str_input offset_map).1 = length str_input.
Proof.
  induction str_input as [|str str_input IH]; intros offset_map; [done|].
  cbn [tokenize_inputs].
  destruct (Tokenize _ _ _ _ _ _ _ _ _ _) as [r om].
  specialize (IH om). destruct (tokenize_inputs _ _ _ _ _ _ _ _ _ _ _) as [rs om'].
  simpl in *. by rewrite IH.
Qed.

Lemma Tokenize_ids_offsets max_length c c' input offset_map offset_map' :
  (Tokenize category cat_L cat_N cat_Z ToLower v max_length c input offset_map).1
  = (Tokenize category cat_L cat_N cat_Z ToLower v max_length c' input offset_map').1.
Proof.
  destruct (IsEmptyUString (WhiteSpaceClean input)) eqn:E.
  { unfold Tokenize. by rewrite E. }
  by rewrite !Tokenize_res.
Qed.

(** The results of the loop over the inputs are the ids of each input, the
    offsets gathered on the way aside. *)
Lemma tokenize_inputs_results padding_length_ c str_input : forall offset_map,
  (tokenize_inputs category cat_L cat_N cat_Z ToLower ustring_of_string v
     padding_length_ c str_input offset_map).1
  = (fun str =>
       (Tokenize category cat_L cat_N cat_Z ToLower v (Compute_max_length padding_length_)
          false (ustring_of_string str) []).1) <$> str_input.
Proof.
  induction str_input as [|str str_input IH]; intros offset_map; [done|].
  cbn [tokenize_inputs fmap list_fmap].
  pose proof (Tokenize_ids_offsets (Compute_max_length padding_length_) c false
                (ustring_of_string str) offset_map []) as Hr.
  destruct (Tokenize _ _ _ _ _ _ _ c _ offset_map) as [r om].
  specialize (IH om). destruct (tokenize_inputs _ _ _ _ _ _ _ _ _ _ _) as [rs om'].
  simpl in *. by rewrite IH, Hr.
Qed.

(** X13: with the padding length -1 the rows of the token output and of the
    attention mask have the length [m] of the longest result of [Tokenize]
    on an input, with the cap [INT64_MAX]: no result is longer than [m], one
    of them has the length [m], and [m] is 0 without inputs.  The token row
    of an input is its result, then the id of the end token up to the length
    [m]; its mask row is a 1 for each id of the result, then 0 up to the
    length [m]; the mask is made only when it is asked for. *)
Theorem Compute_pads_to_longest input_dim str_input attention_mask offset_mapping :
  let EOS := GetEncoding v "<|endoftext|>" in
  let results :=
    (fun str =>
       (Tokenize category cat_L cat_N cat_Z ToLower v INT64_MAX false
          (ustring_of_string str) []).1) <$> str_input in
  let out :=
    Compute category cat_L cat_N cat_Z ToLower ustring_of_string v (-1)
      input_dim str_input attention_mask offset_mapping in
  exists m : nat,
    Forall (fun r => (length r <= m)%nat) results /\
    (if str_input is [] then m = 0%nat
     else Exists (fun r => length r = m) results) /\
    output_dim out = input_dim ++ [Z.of_nat m] /\
    token out = results ≫= (fun r => r ++ replicate (m - length r) EOS) /\
    length (token out) = (length str_input * m)%nat /\
    mask out
    = if attention_mask
      then Some (results ≫=
                   (fun r => replicate (length r) 1 ++ replicate (m - length r) 0))
      else None.
Proof.
  intros EOS results out.
  set (m := foldl (fun m (r : list Z) => Nat.max m (length r)) 0%nat results).
  assert (length results = length str_input) as Hlen by apply length_fmap.
  assert (Forall (fun r : list Z => (length r <= m)%nat) results) as Hle.
  { apply Forall_forall. intros r Hr. by apply foldl_max_le. }
  assert (out = {| output_dim := input_dim ++ [Z.of_nat m];
                   token := results ≫= token_row m EOS;
                   mask := if attention_mask then Some (results ≫= mask_row m) else None;
                   offset_out :=
                     if offset_mapping
                     then Some (offset_values
                                  (tokenize_inputs category cat_L cat_N cat_Z ToLower
                                     ustring_of_string v (-1) offset_mapping str_input []).2)
                     else None |}) as ->.
  { unfold out, Compute, m, results.
    pose proof (tokenize_inputs_results (-1) offset_mapping str_input []) as Hres.
    destruct (tokenize_inputs _ _ _ _ _ _ _ _ _ _ _) as [rs om].
    simpl in Hres. by subst rs. }
  cbn [output_dim token mask]. exists m.
  split; [exact Hle|]. split; [|split; [done|split; [done|split]]].
  - destruct str_input as [|str str_input]; [done|].
    destruct (foldl_max_attained results 0) as [Hm | Hex]; [|exact Hex].
    fold m in Hm. apply Exists_cons_hd.
    apply Forall_cons in Hle as [Hle _]. lia.
  - rewrite <- Hlen. apply bind_rows_length.
    eapply Forall_impl; [exact Hle|]. simpl. intros r Hr. rewrite token_row_length. lia.
  - done.
Qed.

(** X14: with a padding length [p] of at least one and one input that is
    not taken as empty: when the input has at most [p - 2] ids the row is the
    start token, the ids, and the end token up to the length [p]; when it has
    [p - 1] ids or more, the row is the first [p] of the start token and the
    ids, then the end token: [p + 1] values are stored for a row that
    [output_dim] gives the length [p]. *)
Theorem Compute_fixed_padding_row p input_dim str attention_mask offset_mapping :
  let BOS := GetEncoding v "<|startoftext|>" in
  let EOS := GetEncoding v "<|endoftext|>" in
  let ids := all_ids category cat_L cat_N cat_Z ToLower v (ustring_of_string str) in
  let out :=
    Compute category cat_L cat_N cat_Z ToLower ustring_of_string v p
      input_dim [str] attention_mask offset_mapping in
  1 <= p < 18446744073709551616 ->
  IsEmptyUString (WhiteSpaceClean (ustring_of_string str)) = false ->
  output_dim out = input_dim ++ [p] /\
  (Z.of_nat (length ids) + 2 <= p ->
   token out = BOS :: ids ++ replicate (Z.to_nat p - length ids - 1) EOS /\
   Z.of_nat (length (token out)) = p) /\
  (p - 1 <= Z.of_nat (length ids) ->
   token out = take (Z.to_nat p) (BOS :: ids) ++ [EOS] /\
   Z.of_nat (length (token out)) = p + 1).
Proof.
  intros BOS EOS ids out Hp Hne.
  assert (Compute_max_length p = p) as Hcap.
  { unfold Compute_max_length. destruct (p <? 0) eqn:E; [lia|done]. }
  assert (forall r, row_length p [r] = Z.to_nat p) as Hrow.
  { intros r. unfold row_length. destruct (p =? -1) eqn:E; [lia|].
    f_equal. unfold wrap_size_t. apply Z.mod_small. lia. }
  assert (out = {| output_dim := input_dim ++ [p];
                   token := token_row (Z.to_nat p) EOS
                              (take (Z.to_nat p) (BOS :: ids) ++ [EOS]);
                   mask := mask out; offset_out := offset_out out |}) as Hout.
  { unfold out, Compute. cbn [tokenize_inputs]. rewrite Hcap.
    pose proof (Tokenize_res category cat_L cat_N cat_Z ToLower v p offset_mapping
                  (ustring_of_string str) [] Hne) as Hres.
    rewrite capped_start in Hres by lia.
    destruct (Tokenize _ _ _ _ _ _ _ _ _ _) as [r om]. simpl in Hres. subst r.
    rewrite Hrow. cbn [output_dim token mask offset_out mbind list_bind].
    rewrite app_nil_r, Z2Nat.id by lia. done. }
  rewrite Hout. cbn [output_dim token]. split; [done|]. split.
  - intros Hshort.
    rewrite take_ge by (simpl; lia).
    unfold token_row. rewrite length_app. simpl.
    split.
    + rewrite <- app_assoc. f_equal. f_equal. simpl.
      replace (Z.to_nat p - length ids - 1)%nat
        with (S (Z.to_nat p - S (length ids + 1)))%nat by lia.
      done.
    + rewrite !length_app, length_replicate. simpl. lia.
  - intros Hlong. unfold token_row.
    rewrite length_app, length_take. simpl.
    replace (Z.to_nat p - (Z.to_nat p `min` S (length ids) + 1))%nat with 0%nat by lia.
    simpl. rewrite app_nil_r. split; [done|].
    rewrite length_app, length_take. simpl. lia.
Qed.

End ComputeFacts.

Lemma Compute_fixed_padding_row_witness :
  token (Compute ascii_category 1 2 4 ascii_tolower ascii_decode example_tokenizer 3
           [1] ["abcd xyz"%string] false false)
  = take (Z.to_nat 3)
      (GetEncoding example_tokenizer "<|startoftext|>"
       :: all_ids ascii_category 1 2 4 ascii_tolower example_tokenizer
            (ascii_decode "abcd xyz"))
    ++ [GetEncoding example_tokenizer "<|endoftext|>"] /\
  Z.of_nat (length (token (Compute ascii_category 1 2 4 ascii_tolower ascii_decode
                             example_tokenizer 3 [1] ["abcd xyz"%string] false false)))
  = 3 + 1.
Proof.
  apply (proj2 (proj2 (Compute_fixed_padding_row ascii_category 1 2 4 ascii_tolower
                         ascii_decode example_tokenizer 3 [1] "abcd xyz" false false
                         ltac:(lia) ltac:(vm_compute; reflexivity)))).
  vm_compute. discriminate.
Defined.

Example example_Compute_padding :
  token (Compute ascii_category 1 2 4 ascii_tolower ascii_decode example_tokenizer (-1)
           [2] ["ab"; "abcd xyz"]%string true false)
  = [517; 64; 321; 516; 516; 516; 516; 517; 512; 513; 87; 88; 345; 516] /\
  mask (Compute ascii_category 1 2 4 ascii_tolower ascii_decode example_tokenizer (-1)
          [2] ["ab"; "abcd xyz"]%string true false)
  = Some [1; 1; 1; 1; 0; 0; 0; 1; 1; 1; 1; 1; 1; 1].
Proof. vm_compute. done. Qed.
